(** * Control-signal preparation of the NEWT timbre-transfer notebook

    Source: [Copy_of_NEWT_Timbre_Transfer.ipynb], cells "Adjust Control
    Signals" and "Synthesise Audio!".

    Modelling choices.
    - Floating-point samples are exact rationals ([Q]); [.float()] and
      [.cpu()] are the identity.  Results are compared with [==] where a
      claim speaks of values.  A standard deviation of [0] is outside the
      model (NumPy yields inf/nan there, [Q] yields [0]).
    - A one-dimensional array is the list of its elements.  A tensor the
      cell keeps in a variable is a [torch.signal]: zero-dimensional or
      one-dimensional, because [squeeze()] drops every dimension of size
      one, the frame dimension of a one-frame clip included.  The operands
      and the result of [conv1d], of shape (1, 1, T), are the list of their
      T elements.
    - A Python exception ends the cell: the notebook monad is a state monad
      over the kernel's variables with an error result. *)

From Stdlib Require Import QArith ZArith List Lia Bool Arith Qfield.
From Stdlib Require String Ascii.
From Stdlib Require Import Lqa Qpower.
From ExtLib Require Import Structures.Monad Structures.MonadState
  Data.Monads.StateMonad Data.Monads.EitherMonad.
Import ListNotations.
Import MonadNotation.

#[local] Open Scope Q_scope.

(** ** Python exceptions *)

Inductive PyError : Type :=
| ValueError   (* NumPy: operands could not be broadcast together *)
| IndexError   (* NumPy: index out of bounds *)
| RuntimeError (* PyTorch: shape errors of conv1d and stack *).

Definition result : Type -> Type := sum PyError.

(** ** NumPy: element-wise operations on one-dimensional arrays *)

Module np.

Definition array : Type := list Q.
Definition mask : Type := list bool.

(** [a > s] for an array [a] and a scalar [s]. *)
Definition gt (a : array) (s : Q) : mask :=
  map (fun x => negb (Qle_bool x s)) a.

(** A boolean promoted to a number by an arithmetic operator. *)
Definition of_bool (b : bool) : Q := if b then 1 else 0.

(** Broadcasting of two one-dimensional operands: equal lengths pair up,
    a length-one operand is repeated, anything else raises. *)
Definition broadcast {A B C : Type} (f : A -> B -> C)
    (a : list A) (b : list B) : result (list C) :=
  if (length a =? length b)%nat
  then inr (map (fun xy => f (fst xy) (snd xy)) (combine a b))
  else match a, b with
       | [x], _ => inr (map (f x) b)
       | _, [y] => inr (map (fun x => f x y) a)
       | _, _ => inl ValueError
       end.

(** [a * m] for an array [a] and a boolean array [m]. *)
Definition mul_mask (a : array) (m : mask) : result array :=
  broadcast (fun x b => x * of_bool b) a m.

(** [a * s], [a - s], [a / s] for an array [a] and a scalar [s]. *)
Definition mul_scalar (a : array) (s : Q) : array := map (fun x => x * s) a.
Definition sub_scalar (a : array) (s : Q) : array := map (fun x => x - s) a.
Definition div_scalar (a : array) (s : Q) : array := map (fun x => x / s) a.

(** [a[i]]. *)
Definition index (a : array) (i : nat) : result Q :=
  match nth_error a i with
  | Some x => inr x
  | None => inl IndexError
  end.

End np.

(** ** PyTorch: the tensor operations the cell calls *)

Module torch.

(** The elements of a tensor of shape (1, 1, n): an operand or a result
    of [conv1d]. *)
Definition tensor : Type := list Q.

(** A tensor of rank zero or one. *)
Inductive signal : Type :=
| Scalar (v : Q)          (* shape () *)
| Vector (l : list Q)     (* shape (n,) *).

(** The result of stacking two signals. *)
Inductive stacked : Type :=
| Pair (a b : Q)          (* shape (2,) *)
| Rows (a b : list Q)     (* shape (2, n) *).

(** The elements of a signal, in order. *)
Definition elements (t : signal) : list Q :=
  match t with
  | Scalar v => [v]
  | Vector l => l
  end.

(** [t.shape] *)
Definition shape (t : signal) : list nat :=
  match t with
  | Scalar _ => []
  | Vector l => [length l]
  end.

(** [torch.tensor(a, device=device).float()] for a one-dimensional array. *)
Definition of_array (a : np.array) : signal := Vector a.

(** [t.expand(1, 1, -1)]: a one-dimensional tensor becomes (1, 1, n); a
    zero-dimensional tensor has no last dimension to keep and raises. *)
Definition expand (t : signal) : result tensor :=
  match t with
  | Scalar _ => inl RuntimeError
  | Vector l => inr l
  end.

(** [t.squeeze()] for [t] of shape (1, 1, n): every dimension of size one
    is dropped, so one element gives a zero-dimensional tensor. *)
Definition squeeze (t : tensor) : signal :=
  match t with
  | [v] => Scalar v
  | _ => Vector t
  end.

(** An element-wise operation keeps the shape. *)
Definition map_signal (f : Q -> Q) (t : signal) : signal :=
  match t with
  | Scalar v => Scalar (f v)
  | Vector l => Vector (map f l)
  end.

(** [torch.ones(1, 1, n)]. *)
Definition ones (n : nat) : tensor := repeat 1 n.

(** [t / s] for a scalar [s]. *)
Definition div_scalar (t : tensor) (s : Q) : tensor := map (fun x => x / s) t.

(** Sum of products of a kernel with the start of a signal. *)
Fixpoint dot (w x : tensor) : Q :=
  match w, x with
  | a :: w', b :: x' => a * b + dot w' x'
  | _, _ => 0
  end.

(** The input with [padding] zeros on both sides. *)
Definition pad (input : tensor) (padding : nat) : tensor :=
  repeat 0 padding ++ input ++ repeat 0 padding.

(** [torch.nn.functional.conv1d(input, weight, padding=padding)] for one
    batch, one input and one output channel, stride 1, no bias: the
    cross-correlation of the zero-padded input with the kernel.  A kernel
    longer than the padded input raises. *)
Definition conv1d (input weight : tensor) (padding : nat) : result tensor :=
  let padded := pad input padding in
  if (length padded <? length weight)%nat then inl RuntimeError
  else inr (map (fun i => dot weight (skipn i padded))
                (seq 0 (length padded - length weight + 1))).

(** [torch.stack((a, b), dim=0)]: the two tensors must have the same
    shape. *)
Definition stack (a b : signal) : result stacked :=
  match a, b with
  | Scalar x, Scalar y => inr (Pair x y)
  | Vector x, Vector y =>
      if (length x =? length y)%nat then inr (Rows x y) else inl RuntimeError
  | _, _ => inl RuntimeError
  end.

End torch.

(** ** The notebook kernel *)

(** The form fields of the cell "Adjust Control Signals".  The smoothing
    sliders range over 0..100, the octave slider over -4..4. *)
Record Params : Type := mkParams {
  octave_shift : Z;
  loudness_scale : Q;
  loudness_floor : Q;
  loudness_conf_filter : Q;
  pitch_conf_filter : Q;
  pitch_smoothing : nat;
  loudness_smoothing : nat
}.

(** The variables of the kernel that the two cells read or assign.  The
    first five are assigned by earlier cells (feature extraction and
    checkpoint loading), the others by "Adjust Control Signals". *)
Record Env : Type := mkEnv {
  f0 : np.array;
  confidence : np.array;
  loudness : np.array;
  data_mean : np.array;
  data_std : np.array;
  f0_filtered : np.array;
  loudness_filtered : np.array;
  f0_shifted : np.array;
  loudness_floored : np.array;
  loudness_scaled : np.array;
  loud_norm : np.array;
  f0_t : torch.signal;
  loud_norm_t : torch.signal;
  f0_norm_t : torch.signal;
  control : torch.stacked
}.

Definition set_f0_filtered (v : np.array) (e : Env) : Env :=
  mkEnv (f0 e) (confidence e) (loudness e) (data_mean e) (data_std e)
        v (loudness_filtered e) (f0_shifted e) (loudness_floored e)
        (loudness_scaled e) (loud_norm e) (f0_t e) (loud_norm_t e)
        (f0_norm_t e) (control e).

Definition set_loudness_filtered (v : np.array) (e : Env) : Env :=
  mkEnv (f0 e) (confidence e) (loudness e) (data_mean e) (data_std e)
        (f0_filtered e) v (f0_shifted e) (loudness_floored e)
        (loudness_scaled e) (loud_norm e) (f0_t e) (loud_norm_t e)
        (f0_norm_t e) (control e).

Definition set_f0_shifted (v : np.array) (e : Env) : Env :=
  mkEnv (f0 e) (confidence e) (loudness e) (data_mean e) (data_std e)
        (f0_filtered e) (loudness_filtered e) v (loudness_floored e)
        (loudness_scaled e) (loud_norm e) (f0_t e) (loud_norm_t e)
        (f0_norm_t e) (control e).

Definition set_loudness_floored (v : np.array) (e : Env) : Env :=
  mkEnv (f0 e) (confidence e) (loudness e) (data_mean e) (data_std e)
        (f0_filtered e) (loudness_filtered e) (f0_shifted e) v
        (loudness_scaled e) (loud_norm e) (f0_t e) (loud_norm_t e)
        (f0_norm_t e) (control e).

Definition set_loudness_scaled (v : np.array) (e : Env) : Env :=
  mkEnv (f0 e) (confidence e) (loudness e) (data_mean e) (data_std e)
        (f0_filtered e) (loudness_filtered e) (f0_shifted e)
        (loudness_floored e) v (loud_norm e) (f0_t e) (loud_norm_t e)
        (f0_norm_t e) (control e).

Definition set_loud_norm (v : np.array) (e : Env) : Env :=
  mkEnv (f0 e) (confidence e) (loudness e) (data_mean e) (data_std e)
        (f0_filtered e) (loudness_filtered e) (f0_shifted e)
        (loudness_floored e) (loudness_scaled e) v (f0_t e) (loud_norm_t e)
        (f0_norm_t e) (control e).

Definition set_f0_t (v : torch.signal) (e : Env) : Env :=
  mkEnv (f0 e) (confidence e) (loudness e) (data_mean e) (data_std e)
        (f0_filtered e) (loudness_filtered e) (f0_shifted e)
        (loudness_floored e) (loudness_scaled e) (loud_norm e) v
        (loud_norm_t e) (f0_norm_t e) (control e).

Definition set_loud_norm_t (v : torch.signal) (e : Env) : Env :=
  mkEnv (f0 e) (confidence e) (loudness e) (data_mean e) (data_std e)
        (f0_filtered e) (loudness_filtered e) (f0_shifted e)
        (loudness_floored e) (loudness_scaled e) (loud_norm e) (f0_t e) v
        (f0_norm_t e) (control e).

Definition set_f0_norm_t (v : torch.signal) (e : Env) : Env :=
  mkEnv (f0 e) (confidence e) (loudness e) (data_mean e) (data_std e)
        (f0_filtered e) (loudness_filtered e) (f0_shifted e)
        (loudness_floored e) (loudness_scaled e) (loud_norm e) (f0_t e)
        (loud_norm_t e) v (control e).

Definition set_control (v : torch.stacked) (e : Env) : Env :=
  mkEnv (f0 e) (confidence e) (loudness e) (data_mean e) (data_std e)
        (f0_filtered e) (loudness_filtered e) (f0_shifted e)
        (loudness_floored e) (loudness_scaled e) (loud_norm e) (f0_t e)
        (loud_norm_t e) (f0_norm_t e) v.

(** The notebook monad: kernel state, and a Python exception or a value. *)
#[local] Existing Instance Monad_stateT.

Definition NB : Type -> Type := stateT Env result.

(** An assignment [x = rhs]: the right-hand side is evaluated in the
    current kernel state and may raise. *)
Definition assign {A : Type} (set : A -> Env -> Env) (rhs : Env -> result A)
  : NB unit :=
  mkStateT (fun e => match rhs e with
                     | inl err => inl err
                     | inr v => inr (tt, set v e)
                     end).

(** [if c: body] without an else branch. *)
Definition when (c : bool) (body : NB unit) : NB unit :=
  if c then body else ret tt.

(** The kernel state after a cell, or the exception it raised. *)
Definition exec (c : NB unit) (e : Env) : result Env :=
  match runStateT c e with
  | inl err => inl err
  | inr (_, e') => inr e'
  end.


(** ** The expressions of the cell "Adjust Control Signals" *)

#[local] Open Scope monad_scope.

(** [x * (confidence > threshold)] *)
Definition confidence_gate (x conf : np.array) (threshold : Q)
  : result np.array :=
  np.mul_mask x (np.gt conf threshold).

(** [x * (2 ** octave_shift)] *)
Definition shift_octaves (x : np.array) (shift : Z) : np.array :=
  np.mul_scalar x (2 ^ shift).

(** [x * (x > loudness_floor) - loudness_floor] *)
Definition floor_loudness (x : np.array) (floor : Q) : result np.array :=
  gated <- np.mul_mask x (np.gt x floor) ;;
  ret (np.sub_scalar gated floor).

(** [(x - mean) / std] *)
Definition normalize (x : list Q) (mean std : Q) : list Q :=
  np.div_scalar (np.sub_scalar x mean) std.

(** [(x - data_mean[i]) / data_std[i]]; the mean is indexed first. *)
Definition normalize_channel (x : list Q) (i : nat) (e : Env)
  : result (list Q) :=
  mean <- np.index (data_mean e) i ;;
  std <- np.index (data_std e) i ;;
  ret (normalize x mean std).

(** [(t.cpu() - data_mean[i]) / data_std[i]] for a tensor [t]. *)
Definition normalize_channel_t (t : torch.signal) (i : nat) (e : Env)
  : result torch.signal :=
  mean <- np.index (data_mean e) i ;;
  std <- np.index (data_std e) i ;;
  ret (torch.map_signal (fun v => (v - mean) / std) t).

(** [torch.ones(1, 1, radius * 2 + 1) / (radius * 2 + 1)] *)
Definition box_kernel (radius : nat) : torch.tensor :=
  torch.div_scalar (torch.ones (radius * 2 + 1))
                   (inject_Z (Z.of_nat (radius * 2 + 1))).

(** [conv1d(x, kernel, padding=radius)] for [x] of shape (1, 1, T) and the
    box kernel: the result, of shape (1, 1, T), before [squeeze()]. *)
Definition moving_average (t : torch.tensor) (radius : nat)
  : result torch.tensor :=
  torch.conv1d t (box_kernel radius) radius.

(** [conv1d(t.expand(1, 1, -1), kernel, padding=radius).squeeze()] *)
Definition smooth (t : torch.signal) (radius : nat) : result torch.signal :=
  x <- torch.expand t ;;
  y <- moving_average x radius ;;
  ret (torch.squeeze y).

(** ** The cell "Adjust Control Signals", statement by statement *)

Definition adjust_control_signals (p : Params) : NB unit :=
  assign set_f0_filtered
    (fun e => confidence_gate (f0 e) (confidence e) (pitch_conf_filter p)) ;;
  assign set_loudness_filtered
    (fun e => confidence_gate (loudness e) (confidence e)
                              (loudness_conf_filter p)) ;;
  assign set_f0_shifted
    (fun e => inr (shift_octaves (f0_filtered e) (octave_shift p))) ;;
  assign set_loudness_floored
    (fun e => floor_loudness (loudness_filtered e) (loudness_floor p)) ;;
  assign set_loudness_scaled
    (fun e => inr (np.mul_scalar (loudness_floored e) (loudness_scale p))) ;;
  assign set_loud_norm
    (fun e => normalize_channel (loudness_scaled e) 1 e) ;;
  assign set_f0_t (fun e => inr (torch.of_array (f0_shifted e))) ;;
  assign set_loud_norm_t (fun e => inr (torch.of_array (loud_norm e))) ;;
  when (negb (pitch_smoothing p =? 0)%nat)
    (assign set_f0_t
       (fun e => smooth (f0_t e) (pitch_smoothing p))) ;;
  assign set_f0_norm_t (fun e => normalize_channel_t (f0_t e) 0 e) ;;
  when (negb (loudness_smoothing p =? 0)%nat)
    (assign set_loud_norm_t
       (fun e => smooth (loud_norm_t e) (loudness_smoothing p))) ;;
  assign set_f0_norm_t (fun e => normalize_channel_t (f0_t e) 0 e) ;;
  assign set_control (fun e => torch.stack (f0_norm_t e) (loud_norm_t e)).

(** ** The cell "Synthesise Audio!"

    [out = model(f0_t.expand(1, 1, -1), control.unsqueeze(0))]; the
    synthesis model is external and taken as a function of its two
    arguments. *)
Definition synthesise
    (model : torch.tensor -> torch.stacked -> torch.tensor) (e : Env)
  : result torch.tensor :=
  x <- torch.expand (f0_t e) ;;
  ret (model x (control e)).

(** ** Vocabulary of the properties *)

(** Sum of a sequence. *)
Fixpoint Qsum (l : list Q) : Q :=
  match l with
  | [] => 0
  | x :: l' => x + Qsum l'
  end.

(** The samples of [x] whose index lies in [i - radius .. i + radius]: the
    part of the centred window that falls inside the sequence. *)
Definition window (x : list Q) (i radius : nat) : list Q :=
  firstn (i + radius + 1 - (i - radius)) (skipn (i - radius) x).

(** The inverse of [(x - mean) / std] on one value, as the specification
    words it: multiply by the standard deviation, add the mean. *)
Definition denormalize (y mean std : Q) : Q := y * std + mean.

(** The raw sequences have one value per frame, the checkpoint statistics
    have an entry for both control channels, a clip that is smoothed has
    at least one frame, and a one-frame clip has both rows smoothed or
    neither. *)
Definition well_formed (p : Params) (e : Env) : Prop :=
  length (confidence e) = length (f0 e) /\
  length (loudness e) = length (f0 e) /\
  (2 <= length (data_mean e))%nat /\
  (2 <= length (data_std e))%nat /\
  (f0 e <> [] \/ (pitch_smoothing p = 0%nat /\ loudness_smoothing p = 0%nat))
  /\
  (length (f0 e) = 1%nat ->
   (pitch_smoothing p = 0%nat <-> loudness_smoothing p = 0%nat)).

(** Two kernel states hold the same raw sequences and statistics. *)
Definition same_inputs (e1 e2 : Env) : Prop :=
  f0 e1 = f0 e2 /\ confidence e1 = confidence e2 /\
  loudness e1 = loudness e2 /\
  data_mean e1 = data_mean e2 /\ data_std e1 = data_std e2.

(** Smoothing as the cell guards it: skipped for radius [0]. *)
Definition smoothed (t : torch.signal) (radius : nat)
  : result torch.signal :=
  if (radius =? 0)%nat then inr t else smooth t radius.

(** What a completed run of "Adjust Control Signals" leaves in the kernel,
    variable by variable, in terms of the state [e] it started from. *)
Record adjusted (p : Params) (e e' : Env) : Prop := mkAdjusted {
  adj_inputs : same_inputs e' e;
  adj_f0_filtered :
    confidence_gate (f0 e) (confidence e) (pitch_conf_filter p)
    = inr (f0_filtered e');
  adj_loudness_filtered :
    confidence_gate (loudness e) (confidence e) (loudness_conf_filter p)
    = inr (loudness_filtered e');
  adj_f0_shifted :
    f0_shifted e' = shift_octaves (f0_filtered e') (octave_shift p);
  adj_loudness_floored :
    floor_loudness (loudness_filtered e') (loudness_floor p)
    = inr (loudness_floored e');
  adj_loudness_scaled :
    loudness_scaled e'
    = np.mul_scalar (loudness_floored e') (loudness_scale p);
  adj_loud_norm :
    normalize_channel (loudness_scaled e') 1 e = inr (loud_norm e');
  adj_f0_t :
    smoothed (torch.of_array (f0_shifted e')) (pitch_smoothing p)
    = inr (f0_t e');
  adj_loud_norm_t :
    smoothed (torch.of_array (loud_norm e')) (loudness_smoothing p)
    = inr (loud_norm_t e');
  adj_f0_norm_t :
    normalize_channel_t (f0_t e') 0 e = inr (f0_norm_t e');
  adj_control :
    torch.stack (f0_norm_t e') (loud_norm_t e') = inr (control e')
}.

(** A three-frame clip and slider settings used as a running example. *)
Definition demo_env : Env :=
  mkEnv [440; 440; 0] [0.9; 0.05; 0.9] [0.5; 0.01; 0.3]
        [100; 0.2] [50; 0.1]
        [] [] [] [] [] [] (torch.Vector []) (torch.Vector [])
        (torch.Vector []) (torch.Rows [] []).

(** A kernel state with the given raw sequences and statistics in which
    the cell has not run yet. *)
Definition fresh_env (f c l m s : np.array) : Env :=
  mkEnv f c l m s [] [] [] [] [] []
        (torch.Vector []) (torch.Vector []) (torch.Vector [])
        (torch.Rows [] []).

(** A one-frame clip. *)
Definition one_frame_env : Env :=
  fresh_env [440] [0.9] [0.5] [100; 0.2] [50; 0.1].

Definition demo_params : Params := mkParams 1 0.5 0.06 0 0.1 1 2.

(** A constant three-frame sequence. *)
Definition demo_clip : torch.tensor := [3; 3; 3].

(** ** The cells "Make imports" and "Load Checkpoint": checkpoint files *)

Module colab.

Import String Ascii.
#[local] Open Scope string_scope.

(** [checkpoints = dict(Violin="vn", Flute="fl", Trumpet="tpt")] *)
Definition checkpoints : list (string * string) :=
  [("Violin", "vn"); ("Flute", "fl"); ("Trumpet", "tpt")].

(** The choices of the form field [selected_checkpoint_name]. *)
Definition checkpoint_names : list string := ["Violin"; "Flute"; "Trumpet"].

(** [d[k]]; [None] stands for [KeyError]. *)
Fixpoint getitem (d : list (string * string)) (k : string) : option string :=
  match d with
  | [] => None
  | (k', v) :: d' => if k' =? k then Some v else getitem d' k
  end.

Definition startswith_sep (s : string) : bool :=
  match s with
  | String c _ => Ascii.eqb c "/"%char
  | EmptyString => false
  end.

Fixpoint endswith_sep (s : string) : bool :=
  match s with
  | EmptyString => false
  | String c EmptyString => Ascii.eqb c "/"%char
  | String _ s' => endswith_sep s'
  end.

(** [os.path.join(a, b)] on POSIX: an absolute [b] replaces [a]; otherwise
    the two are joined by one separator unless [a] is empty or already
    ends with one. *)
Definition path_join (a b : string) : string :=
  if startswith_sep b then b
  else if (a =? EmptyString) || endswith_sep a then a ++ b
  else a ++ "/" ++ b.

(** The three files "Load Checkpoint" reads for a chosen name. *)
Record CheckpointFiles : Type := mkCheckpointFiles {
  weights_file : string;
  mean_file : string;
  std_file : string
}.

Definition checkpoint_files (selected_checkpoint_name : string)
  : option CheckpointFiles :=
  match getitem checkpoints selected_checkpoint_name with
  | None => None
  | Some selected_checkpoint =>
      let checkpoint_path := path_join "checkpoints/nws" selected_checkpoint in
      Some (mkCheckpointFiles (path_join checkpoint_path "last.ckpt")
                              (path_join checkpoint_path "data_mean.npy")
                              (path_join checkpoint_path "data_std.npy"))
  end.

End colab.

(** ** The cells "Load Checkpoint" and "Select NEWT version"

    The waveshaper objects and the [FastNEWT] constructor are external;
    the kernel holds the waveshaper installed in the model and the one
    remembered as [original_newt]. *)
Record Synth (Newt : Type) : Type := mkSynth {
  model_newt : Newt;
  original_newt : Newt
}.

Arguments mkSynth {Newt} _ _.
Arguments model_newt {Newt} _.
Arguments original_newt {Newt} _.

(** [model = ...load_from_checkpoint(...)]; [original_newt = model.newt] *)
Definition load_model {Newt : Type} (loaded : Newt) : Synth Newt :=
  mkSynth loaded loaded.

(** [if use_fastnewt: model.newt = FastNEWT(original_newt)]
    [else: model.newt = original_newt] *)
Definition select_newt {Newt : Type} (FastNEWT : Newt -> Newt)
    (use_fastnewt : bool) (s : Synth Newt) : Synth Newt :=
  if use_fastnewt
  then mkSynth (FastNEWT (original_newt s)) (original_newt s)
  else mkSynth (original_newt s) (original_newt s).

(** ** Stepping through a cell *)

Lemma exec_assign {A : Type} (set : A -> Env -> Env) (rhs : Env -> result A)
    (e : Env) :
  exec (assign set rhs) e
  = match rhs e with inl err => inl err | inr v => inr (set v e) end.
Proof. unfold exec, assign; simpl. destruct (rhs e); reflexivity. Qed.

Lemma exec_seq (c k : NB unit) (e : Env) :
  exec (c ;; k) e
  = match exec c e with inl err => inl err | inr e' => exec k e' end.
Proof.
  unfold exec; simpl.
  destruct (runStateT c e) as [err | [u e']]; reflexivity.
Qed.

Lemma exec_when (c : bool) (body : NB unit) (e : Env) :
  exec (when c body) e = if c then exec body e else inr e.
Proof. destruct c; reflexivity. Qed.

(** ** Broadcasting and gating *)

Lemma broadcast_same_length {A B C : Type} (f : A -> B -> C)
    (a : list A) (b : list B) :
  length a = length b ->
  np.broadcast f a b = inr (map (fun xy => f (fst xy) (snd xy)) (combine a b)).
Proof.
  intros H. unfold np.broadcast.
  rewrite H, Nat.eqb_refl. reflexivity.
Qed.

Lemma nth_error_zip {A B : Type} (a : list A) (b : list B) (i : nat)
    (x : A) (y : B) :
  nth_error a i = Some x -> nth_error b i = Some y ->
  nth_error (combine a b) i = Some (x, y).
Proof.
  revert b i.
  induction a as [| a0 a IH]; intros [| b0 b] [| i]; simpl;
    try discriminate.
  - intros [= ->] [= ->]. reflexivity.
  - apply IH.
Qed.

Lemma gt_spec (c s : Q) : negb (Qle_bool c s) = true <-> s < c.
Proof.
  rewrite negb_true_iff, <- not_true_iff_false, Qle_bool_iff.
  split; [apply Qnot_le_lt | apply Qlt_not_le].
Qed.

Lemma nth_error_gt (a : np.array) (s : Q) (i : nat) (c : Q) :
  nth_error a i = Some c ->
  nth_error (np.gt a s) i = Some (negb (Qle_bool c s)).
Proof. intros H. unfold np.gt. now rewrite nth_error_map, H. Qed.

(** With one confidence value per frame the gate succeeds, keeps the
    length, and multiplies frame [i] by the truth value of
    [confidence[i] > threshold]. *)
Lemma confidence_gate_frames (x conf : np.array) (threshold : Q) :
  length conf = length x ->
  exists y,
    confidence_gate x conf threshold = inr y /\
    length y = length x /\
    forall i xi ci,
      nth_error x i = Some xi -> nth_error conf i = Some ci ->
      nth_error y i
      = Some (xi * np.of_bool (negb (Qle_bool ci threshold))).
Proof.
  intros Hlen. unfold confidence_gate, np.mul_mask.
  rewrite broadcast_same_length
    by (unfold np.gt; now rewrite length_map).
  eexists; split; [reflexivity | split].
  - rewrite length_map, length_combine. unfold np.gt.
    rewrite length_map. lia.
  - intros i xi ci Hx Hc.
    rewrite nth_error_map.
    rewrite (nth_error_zip _ _ _ _ _ Hx (nth_error_gt _ threshold _ _ Hc)).
    reflexivity.
Qed.

(** The floor step never raises: its mask is computed from its own
    operand. *)
Lemma floor_loudness_frames (x : np.array) (floor : Q) :
  floor_loudness x floor
  = inr (map (fun v => v * np.of_bool (negb (Qle_bool v floor)) - floor) x).
Proof.
  unfold floor_loudness, np.mul_mask.
  rewrite broadcast_same_length
    by (unfold np.gt; now rewrite length_map).
  simpl. f_equal. unfold np.sub_scalar, np.gt.
  rewrite map_map.
  induction x as [| v x IH]; simpl; [reflexivity |].
  now rewrite IH.
Qed.

(** ** Sums of slices *)

Lemma Qsum_app (a b : list Q) : Qsum (a ++ b) == Qsum a + Qsum b.
Proof.
  induction a as [| x a IH]; simpl; [ring |].
  rewrite IH. ring.
Qed.

Lemma Qsum_zeros (n : nat) : Qsum (repeat 0 n) == 0.
Proof.
  induction n as [| n IH]; simpl; [reflexivity |].
  rewrite IH. ring.
Qed.

Lemma skipn_zeros (i n : nat) : skipn i (repeat 0 n) = repeat 0 (n - i).
Proof.
  revert i; induction n as [| n IH]; intros [| i]; simpl; auto.
Qed.

Lemma firstn_zeros (k n : nat) : firstn k (repeat 0 n) = repeat 0 (min k n).
Proof.
  revert k; induction n as [| n IH]; intros [| k]; simpl; auto.
  now rewrite IH.
Qed.

Lemma Qsum_slice_zeros (k i n : nat) :
  Qsum (firstn k (skipn i (repeat 0 n))) == 0.
Proof. rewrite skipn_zeros, firstn_zeros. apply Qsum_zeros. Qed.

(** Zeros appended to a sequence do not change the sum of any slice. *)
Lemma Qsum_slice_padded_right (k i n : nat) (x : list Q) :
  Qsum (firstn k (skipn i (x ++ repeat 0 n)))
  == Qsum (firstn k (skipn i x)).
Proof.
  rewrite skipn_app, firstn_app, Qsum_app, Qsum_slice_zeros. ring.
Qed.

(** A window of the padded input sums to the in-range part of the centred
    window. *)
Lemma Qsum_window_pad (x : list Q) (i r : nat) :
  Qsum (firstn (r * 2 + 1) (skipn i (torch.pad x r))) == Qsum (window x i r).
Proof.
  unfold torch.pad, window.
  rewrite skipn_app, firstn_app, Qsum_app, Qsum_slice_zeros.
  rewrite length_skipn, !repeat_length.
  rewrite Qsum_slice_padded_right.
  replace (r * 2 + 1 - (r - i))%nat with (i + r + 1 - (i - r))%nat by lia.
  ring.
Qed.

(** ** The box kernel *)

Lemma length_box_kernel (r : nat) : length (box_kernel r) = (r * 2 + 1)%nat.
Proof.
  unfold box_kernel, torch.div_scalar, torch.ones.
  now rewrite length_map, repeat_length.
Qed.

Lemma length_pad (x : list Q) (r : nat) :
  length (torch.pad x r) = (length x + r * 2)%nat.
Proof.
  unfold torch.pad. rewrite !length_app, !repeat_length. lia.
Qed.

(** A kernel of [k] equal weights [1 / n] sums the first [k] samples and
    divides by [n]. *)
Lemma dot_uniform (k : nat) (n : Q) (v : list Q) :
  torch.dot (torch.div_scalar (torch.ones k) n) v == Qsum (firstn k v) / n.
Proof.
  unfold torch.div_scalar, torch.ones.
  revert v; induction k as [| k IH]; intros v; simpl.
  - unfold Qdiv. ring.
  - destruct v as [| b v]; simpl.
    + unfold Qdiv. ring.
    + rewrite IH. unfold Qdiv. ring.
Qed.

Lemma moving_average_nonempty (x : torch.tensor) (r : nat) :
  x <> [] ->
  moving_average x r
  = inr (map (fun i => torch.dot (box_kernel r) (skipn i (torch.pad x r)))
             (seq 0 (length x))).
Proof.
  intros Hx. unfold moving_average, torch.conv1d.
  rewrite length_pad, length_box_kernel.
  assert (0 < length x)%nat as Hpos
    by (destruct x; [congruence | simpl; lia]).
  destruct (Nat.ltb_spec (length x + r * 2) (r * 2 + 1)) as [Hlt | _];
    [lia |].
  do 3 f_equal. lia.
Qed.

Lemma moving_average_empty (r : nat) : moving_average [] r = inl RuntimeError.
Proof.
  unfold moving_average, torch.conv1d.
  rewrite length_pad, length_box_kernel. simpl.
  destruct (Nat.ltb_spec (r * 2) (r * 2 + 1)) as [_ | Hge]; [reflexivity | lia].
Qed.

Lemma moving_average_length (x y : torch.tensor) (r : nat) :
  moving_average x r = inr y -> length y = length x.
Proof.
  destruct x as [| a x].
  - now rewrite moving_average_empty.
  - rewrite moving_average_nonempty by discriminate.
    intros H. injection H as <-.
    simpl. now rewrite length_map, length_seq.
Qed.

Lemma length_window_boundary (x : list Q) (i r : nat) :
  (i < r \/ length x <= i + r)%nat ->
  (length (window x i r) < 2 * r + 1)%nat.
Proof.
  unfold window. rewrite length_firstn, length_skipn. lia.
Qed.

Lemma length_window_interior (x : list Q) (i r : nat) :
  (r <= i)%nat -> (i + r < length x)%nat ->
  length (window x i r) = (2 * r + 1)%nat.
Proof.
  unfold window. rewrite length_firstn, length_skipn. lia.
Qed.

(** ** Shapes *)

Lemma elements_squeeze (y : torch.tensor) :
  torch.elements (torch.squeeze y) = y.
Proof. destruct y as [| v [| w y]]; reflexivity. Qed.

Lemma shape_squeeze (y : torch.tensor) :
  torch.shape (torch.squeeze y)
  = if (length y =? 1)%nat then [] else [length y].
Proof. destruct y as [| v [| w y]]; reflexivity. Qed.

Lemma elements_map_signal (f : Q -> Q) (t : torch.signal) :
  torch.elements (torch.map_signal f t) = map f (torch.elements t).
Proof. destruct t; reflexivity. Qed.

Lemma shape_map_signal (f : Q -> Q) (t : torch.signal) :
  torch.shape (torch.map_signal f t) = torch.shape t.
Proof. destruct t; simpl; [reflexivity | now rewrite length_map]. Qed.

Lemma stack_same_shape (a b : torch.signal) :
  torch.shape a = torch.shape b -> exists c, torch.stack a b = inr c.
Proof.
  destruct a as [x | x], b as [y | y]; simpl; try discriminate.
  - intros _. now eexists.
  - intros [= ->]. rewrite Nat.eqb_refl. now eexists.
Qed.

Lemma stack_other_shape (a b : torch.signal) :
  torch.shape a <> torch.shape b -> torch.stack a b = inl RuntimeError.
Proof.
  destruct a as [x | x], b as [y | y]; simpl; try reflexivity.
  - congruence.
  - intros H. destruct (Nat.eqb_spec (length x) (length y)) as [Heq | _];
      [| reflexivity].
    now rewrite Heq in H.
Qed.

Lemma smooth_vector (x : list Q) (r : nat) :
  smooth (torch.Vector x) r
  = match moving_average x r with
    | inl err => inl err
    | inr y => inr (torch.squeeze y)
    end.
Proof. unfold smooth; simpl. destruct (moving_average x r); reflexivity. Qed.

(** ** Running the cell *)

Lemma smoothed_length (x : list Q) (y : torch.signal) (r : nat) :
  smoothed (torch.Vector x) r = inr y ->
  length (torch.elements y) = length x.
Proof.
  unfold smoothed. destruct (r =? 0)%nat.
  - now intros [= <-].
  - rewrite smooth_vector.
    destruct (moving_average x r) as [err | z] eqn:E; [discriminate |].
    intros [= <-]. rewrite elements_squeeze.
    now apply moving_average_length with r.
Qed.

Lemma exec_assign_seq {A : Type} (set : A -> Env -> Env)
    (rhs : Env -> result A) (k : NB unit) (e : Env) :
  exec (assign set rhs ;; k) e
  = match rhs e with inl err => inl err | inr v => exec k (set v e) end.
Proof. rewrite exec_seq, exec_assign. destruct (rhs e); reflexivity. Qed.

Lemma exec_smoothing_seq (set : torch.signal -> Env -> Env)
    (get : Env -> torch.signal) (r : nat) (k : NB unit) (e : Env) :
  exec (when (negb (r =? 0)%nat)
          (assign set (fun e => smooth (get e) r)) ;; k) e
  = match smoothed (get e) r with
    | inl err => inl err
    | inr v => exec k (if (r =? 0)%nat then e else set v e)
    end.
Proof.
  rewrite exec_seq, exec_when, exec_assign. unfold smoothed.
  destruct (r =? 0)%nat; simpl; [reflexivity |].
  destruct (smooth (get e) r); reflexivity.
Qed.

(** Reading a variable back from an updated kernel state. *)
Ltac read_env H :=
  cbn [f0 confidence loudness data_mean data_std f0_filtered
       loudness_filtered f0_shifted loudness_floored loudness_scaled
       loud_norm f0_t loud_norm_t f0_norm_t control
       set_f0_filtered set_loudness_filtered set_f0_shifted
       set_loudness_floored set_loudness_scaled set_loud_norm set_f0_t
       set_loud_norm_t set_f0_norm_t set_control] in H.

(** One statement of the cell: name its value, or leave on the error. *)
Ltac run_statement H v E :=
  first [ rewrite exec_assign_seq in H
        | rewrite exec_smoothing_seq in H
        | rewrite exec_assign in H ];
  read_env H;
  lazymatch type of H with
  | match ?rhs with inl _ => _ | inr _ => _ end = _ =>
      destruct rhs as [? | v] eqn:E; [discriminate H |]
  | _ => idtac
  end;
  read_env H.

(** A run that completes leaves every variable as [adjusted] says. *)
Lemma exec_adjusted (p : Params) (e e' : Env) :
  exec (adjust_control_signals p) e = inr e' -> adjusted p e e'.
Proof.
  intros H. unfold adjust_control_signals in H.
  run_statement H v1 E1. run_statement H v2 E2. run_statement H v3 E3.
  run_statement H v4 E4. run_statement H v5 E5. run_statement H v6 E6.
  run_statement H v7 E7. run_statement H v8 E8. run_statement H v9 E9.
  revert H; destruct (pitch_smoothing p =? 0)%nat eqn:Hps; intros H.
  all: run_statement H v10 E10; run_statement H v11 E11.
  all: revert H; destruct (loudness_smoothing p =? 0)%nat eqn:Hls; intros H.
  all: run_statement H v12 E12; run_statement H v13 E13.
  all: injection H as <-.
  all: unfold normalize_channel in E6;
    unfold normalize_channel_t in E10, E12;
    read_env E6; read_env E10; read_env E12.
  all: constructor;
    unfold same_inputs, normalize_channel, normalize_channel_t in *;
    cbn [f0 confidence loudness data_mean data_std f0_filtered
         loudness_filtered f0_shifted loudness_floored loudness_scaled
         loud_norm f0_t loud_norm_t f0_norm_t control
         set_f0_filtered set_loudness_filtered set_f0_shifted
         set_loudness_floored set_loudness_scaled set_loud_norm set_f0_t
         set_loud_norm_t set_f0_norm_t set_control];
    first [ assumption
          | reflexivity
          | now repeat split
          | unfold smoothed; rewrite Hps; reflexivity
          | unfold smoothed; rewrite Hls; reflexivity ].
Qed.

Lemma length_shift_octaves (x : np.array) (k : Z) :
  length (shift_octaves x k) = length x.
Proof. apply length_map. Qed.

Lemma length_mul_scalar (x : np.array) (s : Q) :
  length (np.mul_scalar x s) = length x.
Proof. apply length_map. Qed.

Lemma length_normalize (x : list Q) (m s : Q) :
  length (normalize x m s) = length x.
Proof.
  unfold normalize, np.div_scalar, np.sub_scalar. now rewrite !length_map.
Qed.

Lemma length_floor_loudness (x y : np.array) (floor : Q) :
  floor_loudness x floor = inr y -> length y = length x.
Proof.
  rewrite floor_loudness_frames. intros [= <-]. apply length_map.
Qed.

Lemma normalize_channel_total (x : list Q) (i : nat) (e : Env) :
  (i < length (data_mean e))%nat -> (i < length (data_std e))%nat ->
  exists m s,
    nth_error (data_mean e) i = Some m /\ nth_error (data_std e) i = Some s /\
    normalize_channel x i e = inr (normalize x m s).
Proof.
  intros Hm Hs. unfold normalize_channel, np.index.
  apply nth_error_Some in Hm, Hs.
  destruct (nth_error (data_mean e) i) as [m |]; [| congruence].
  destruct (nth_error (data_std e) i) as [s |]; [| congruence].
  now exists m, s.
Qed.

Lemma normalize_channel_stats (x : list Q) (i : nat) (e1 e2 : Env) :
  data_mean e1 = data_mean e2 -> data_std e1 = data_std e2 ->
  normalize_channel x i e1 = normalize_channel x i e2.
Proof. intros Hm Hs. unfold normalize_channel. now rewrite Hm, Hs. Qed.


Lemma normalize_channel_t_total (t : torch.signal) (i : nat) (e : Env) :
  (i < length (data_mean e))%nat -> (i < length (data_std e))%nat ->
  exists m s,
    nth_error (data_mean e) i = Some m /\ nth_error (data_std e) i = Some s /\
    normalize_channel_t t i e
    = inr (torch.map_signal (fun v => (v - m) / s) t).
Proof.
  intros Hm Hs. unfold normalize_channel_t, np.index.
  apply nth_error_Some in Hm, Hs.
  destruct (nth_error (data_mean e) i) as [m |]; [| congruence].
  destruct (nth_error (data_std e) i) as [s |]; [| congruence].
  now exists m, s.
Qed.

Lemma normalize_channel_t_stats (t : torch.signal) (i : nat) (e1 e2 : Env) :
  data_mean e1 = data_mean e2 -> data_std e1 = data_std e2 ->
  normalize_channel_t t i e1 = normalize_channel_t t i e2.
Proof. intros Hm Hs. unfold normalize_channel_t. now rewrite Hm, Hs. Qed.

(** Smoothing a one-dimensional tensor succeeds unless it is empty and the
    radius is nonzero; the result keeps the frame dimension unless the
    convolution ran on a single frame. *)
Lemma smoothed_total (x : list Q) (r : nat) :
  x <> [] \/ r = 0%nat ->
  exists y,
    smoothed (torch.Vector x) r = inr y /\
    torch.shape y
    = if ((r =? 0) || negb (length x =? 1))%nat then [length x] else [].
Proof.
  intros H. unfold smoothed.
  destruct (Nat.eqb_spec r 0) as [-> | Hr].
  - now exists (torch.Vector x).
  - destruct H as [Hx | ?]; [| contradiction].
    rewrite smooth_vector, moving_average_nonempty by exact Hx.
    eexists; split; [reflexivity |].
    rewrite shape_squeeze, length_map, length_seq. simpl.
    now destruct (length x =? 1)%nat.
Qed.

Lemma nonempty_length {A : Type} (x y : list A) :
  length y = length x -> x <> [] -> y <> [].
Proof. destruct x, y; simpl; congruence. Qed.

(** One statement of the cell on the way to a final state. *)
Ltac run_goal :=
  first [ rewrite exec_assign_seq
        | rewrite exec_smoothing_seq
        | rewrite exec_assign ];
  cbn [f0 confidence loudness data_mean data_std f0_filtered
       loudness_filtered f0_shifted loudness_floored loudness_scaled
       loud_norm f0_t loud_norm_t f0_norm_t control
       set_f0_filtered set_loudness_filtered set_f0_shifted
       set_loudness_floored set_loudness_scaled set_loud_norm set_f0_t
       set_loud_norm_t set_f0_norm_t set_control].

(** With one value per frame, two statistics per array and no smoothing of
    an empty clip, every statement before [torch.stack] succeeds; the two
    rows then have the shapes the smoothing branches left. *)
Lemma exec_up_to_stack (p : Params) (e : Env) :
  length (confidence e) = length (f0 e) ->
  length (loudness e) = length (f0 e) ->
  (2 <= length (data_mean e))%nat ->
  (2 <= length (data_std e))%nat ->
  f0 e <> [] \/ (pitch_smoothing p = 0%nat /\ loudness_smoothing p = 0%nat) ->
  exists (a b : torch.signal) (k : torch.stacked -> Env),
    exec (adjust_control_signals p) e
    = match torch.stack a b with
      | inl err => inl err
      | inr c => inr (k c)
      end /\
    torch.shape a
    = (if ((pitch_smoothing p =? 0) || negb (length (f0 e) =? 1))%nat
       then [length (f0 e)] else []) /\
    torch.shape b
    = (if ((loudness_smoothing p =? 0) || negb (length (f0 e) =? 1))%nat
       then [length (f0 e)] else []).
Proof.
  intros Hc Hl Hm Hs Hne. unfold adjust_control_signals.
  destruct (confidence_gate_frames (f0 e) (confidence e)
              (pitch_conf_filter p) Hc) as (y1 & E1 & L1 & _).
  destruct (confidence_gate_frames (loudness e) (confidence e)
              (loudness_conf_filter p)) as (y2 & E2 & L2 & _);
    [congruence |].
  run_goal. rewrite E1. run_goal. rewrite E2. run_goal. run_goal.
  rewrite floor_loudness_frames. run_goal.
  set (y3 := shift_octaves y1 (octave_shift p)).
  assert (length y3 = length (f0 e)) as L3
    by (subst y3; rewrite length_shift_octaves; exact L1).
  set (y5 := np.mul_scalar _ (loudness_scale p)).
  assert (length y5 = length (f0 e)) as L5
    by (subst y5; rewrite length_mul_scalar, length_map; congruence).
  run_goal.
  destruct (normalize_channel_total y5 1 e) as (m1 & s1 & _ & _ & E6);
    [lia | lia |].
  rewrite (normalize_channel_stats _ _ _ e), E6 by reflexivity.
  set (y6 := normalize y5 m1 s1).
  assert (length y6 = length (f0 e)) as L6
    by (subst y6; rewrite length_normalize; exact L5).
  clearbody y3 y5 y6.
  run_goal. run_goal. run_goal. unfold torch.of_array.
  destruct (smoothed_total y3 (pitch_smoothing p)) as (t9 & E9 & S9).
  { destruct Hne as [Hne | [Hne _]]; [left | now right].
    now apply (nonempty_length (f0 e)). }
  rewrite E9.
  set (e9 := if (pitch_smoothing p =? 0)%nat then _ else _).
  assert (f0_t e9 = t9 /\ loud_norm_t e9 = torch.Vector y6
          /\ data_mean e9 = data_mean e /\ data_std e9 = data_std e)
    as (F9 & N9 & M9 & D9).
  { subst e9. unfold smoothed in E9.
    destruct (pitch_smoothing p =? 0)%nat; repeat split; try reflexivity.
    now injection E9. }
  clearbody e9.
  destruct (normalize_channel_t_total t9 0 e) as (m0 & s0 & _ & _ & E10);
    [lia | lia |].
  run_goal. rewrite F9.
  rewrite (normalize_channel_t_stats _ _ e9 e), E10 by assumption.
  run_goal. rewrite N9.
  destruct (smoothed_total y6 (loudness_smoothing p)) as (t11 & E11 & S11).
  { destruct Hne as [Hne | [_ Hne]]; [left | now right].
    now apply (nonempty_length (f0 e)). }
  rewrite E11.
  set (e11 := if (loudness_smoothing p =? 0)%nat then _ else _).
  assert (f0_t e11 = t9 /\ loud_norm_t e11 = t11
          /\ data_mean e11 = data_mean e /\ data_std e11 = data_std e)
    as (F11 & N11 & M11 & D11).
  { subst e11. unfold smoothed in E11.
    destruct (loudness_smoothing p =? 0)%nat;
      cbn [f0_t loud_norm_t data_mean data_std set_f0_norm_t
           set_loud_norm_t];
      repeat split; try assumption; try reflexivity.
    rewrite N9. now injection E11. }
  clearbody e11.
  run_goal. rewrite F11.
  rewrite (normalize_channel_t_stats _ _ e11 e), E10 by assumption.
  run_goal. rewrite N11.
  eexists _, t11, (fun c => set_control c _).
  split; [reflexivity |]. split.
  - now rewrite shape_map_signal, S9, L3.
  - now rewrite S11, L6.
Qed.

(** On well-formed inputs the cell runs to completion. *)
Lemma exec_total (p : Params) (e : Env) :
  well_formed p e -> exists e', exec (adjust_control_signals p) e = inr e'.
Proof.
  intros (Hc & Hl & Hm & Hs & Hne & Hone).
  destruct (exec_up_to_stack p e Hc Hl Hm Hs Hne) as (a & b & k & E & Sa & Sb).
  destruct (stack_same_shape a b) as (c & Ec).
  - rewrite Sa, Sb.
    destruct (Nat.eqb_spec (length (f0 e)) 1) as [H1 | _];
      [| now rewrite !orb_true_r].
    specialize (Hone H1). simpl. rewrite !orb_false_r.
    destruct (Nat.eqb_spec (pitch_smoothing p) 0) as [Hp | Hp];
      destruct (Nat.eqb_spec (loudness_smoothing p) 0) as [Hq | Hq];
      try reflexivity; tauto.
  - rewrite E, Ec. now eexists.
Qed.

(** A one-frame clip of which exactly one row is smoothed makes
    [torch.stack] raise: the smoothed row has lost its frame dimension. *)
Lemma exec_one_frame_mixed (p : Params) (e : Env) :
  length (f0 e) = 1%nat ->
  length (confidence e) = 1%nat ->
  length (loudness e) = 1%nat ->
  (2 <= length (data_mean e))%nat ->
  (2 <= length (data_std e))%nat ->
  ~ (pitch_smoothing p = 0%nat <-> loudness_smoothing p = 0%nat) ->
  exec (adjust_control_signals p) e = inl RuntimeError.
Proof.
  intros Hf Hc Hl Hm Hs Hmix.
  destruct (exec_up_to_stack p e) as (a & b & k & E & Sa & Sb);
    try congruence.
  { left. destruct (f0 e); [discriminate | discriminate]. }
  rewrite E, stack_other_shape; [reflexivity |].
  rewrite Sa, Sb, Hf. simpl. rewrite !orb_false_r.
  destruct (Nat.eqb_spec (pitch_smoothing p) 0) as [Hp | Hp];
    destruct (Nat.eqb_spec (loudness_smoothing p) 0) as [Hq | Hq];
    try discriminate; tauto.
Qed.

Lemma run_adjusted (p : Params) (e : Env) :
  well_formed p e ->
  exists e', exec (adjust_control_signals p) e = inr e' /\ adjusted p e e'.
Proof.
  intros Hwf. destruct (exec_total p e Hwf) as (e' & He').
  exists e'. split; [exact He' | now apply exec_adjusted].
Qed.

(** Well-formedness of a concrete kernel state, by evaluation. *)
Ltac check_well_formed :=
  unfold well_formed; simpl; repeat split; intros;
  first [lia | discriminate | (left; discriminate)].


(** ** Frames of the smoothed tensor *)

(** The value computed for frame [i], whatever [i]. *)
Lemma frame_value (x : torch.tensor) (r i : nat) :
  torch.dot (box_kernel r) (skipn i (torch.pad x r))
  == Qsum (window x i r) / inject_Z (Z.of_nat (r * 2 + 1)).
Proof. unfold box_kernel. now rewrite dot_uniform, Qsum_window_pad. Qed.

(** A smoothing that returns has one element per frame, and element [i]
    is the sum of the samples in reach of frame [i] over the full window
    size. *)
Lemma smooth_frames (x : list Q) (r : nat) (y : torch.signal) :
  smooth (torch.Vector x) r = inr y ->
  length (torch.elements y) = length x /\
  torch.shape y = (if (length x =? 1)%nat then [] else [length x]) /\
  forall i,
    (i < length x)%nat ->
    exists v,
      nth_error (torch.elements y) i = Some v /\
      v == Qsum (window x i r) / inject_Z (Z.of_nat (2 * r + 1)).
Proof.
  rewrite smooth_vector. destruct x as [| a x].
  - now rewrite moving_average_empty.
  - rewrite moving_average_nonempty by discriminate.
    remember (map _ (seq 0 (length (a :: x)))) as z eqn:Hz.
    intros [= <-]. rewrite elements_squeeze, shape_squeeze. subst z.
    rewrite length_map, length_seq. repeat split.
    intros i Hi. eexists. split.
    + rewrite nth_error_map, nth_error_seq.
      destruct (Nat.ltb_spec i (length (a :: x))) as [_ | Hge]; [| lia].
      reflexivity.
    + cbn [Nat.add]. rewrite frame_value.
      replace (2 * r + 1)%nat with (r * 2 + 1)%nat by lia.
      reflexivity.
Qed.

Lemma smooth_empty (r : nat) :
  smooth (torch.Vector []) r = inl RuntimeError.
Proof. now rewrite smooth_vector, moving_average_empty. Qed.

Lemma gated_frame_zero (x conf y : np.array) (threshold : Q) (i : nat)
    (c : Q) :
  length conf = length x ->
  confidence_gate x conf threshold = inr y ->
  nth_error conf i = Some c ->
  c <= threshold ->
  exists v, nth_error y i = Some v /\ v == 0.
Proof.
  intros Hlen Hy Hc Hle.
  destruct (confidence_gate_frames x conf threshold Hlen) as (y' & E & _ & F).
  rewrite Hy in E. injection E as <-.
  assert (i < length conf)%nat as Hlt by (apply nth_error_Some; congruence).
  destruct (nth_error x i) as [xi |] eqn:Hx;
    [| apply nth_error_None in Hx; lia].
  exists (xi * np.of_bool (negb (Qle_bool c threshold))).
  split; [now apply F |].
  apply Qle_bool_iff in Hle. rewrite Hle. simpl. ring.
Qed.
(** * The loudness floor *)

(** C1, as stated, fails on a gated frame: with floor 0.06, scale 1 and a
    filtered loudness of 0.01 the output is the negative floor -0.06, which
    is neither 0 nor (0.01 - 0.06) scaled. *)
Lemma loudness_floor_gated_frame :
  exists floored o,
    floor_loudness [0.01] 0.06 = inr floored /\
    np.mul_scalar floored 1 = [o] /\
    ~ (o == 0 \/ o == (0.01 - 0.06) * 1) /\
    o == (0 - 0.06) * 1.
Proof.
  eexists; eexists. split; [reflexivity |]. split; [reflexivity |].
  split.
  - intros [H | H]; vm_compute in H; discriminate H.
  - reflexivity.
Qed.

(** C1, amended: after flooring and scaling, a frame whose filtered
    loudness exceeds the floor [f] carries (original - f) scaled, and every
    other frame carries (0 - f) scaled, the negative floor times the scale:
    the floor gates and offsets. *)
Theorem loudness_floor_policy (f s : Q) (x : np.array) :
  exists floored,
    floor_loudness x f = inr floored /\
    Forall2 (fun l o => (f < l /\ o == (l - f) * s) \/
                        (l <= f /\ o == (0 - f) * s))
            x (np.mul_scalar floored s).
Proof.
  rewrite floor_loudness_frames. eexists; split; [reflexivity |].
  unfold np.mul_scalar. rewrite map_map.
  induction x as [| l x IH]; simpl; constructor; [| exact IH].
  destruct (Qle_bool l f) eqn:Hle; simpl.
  - right. split; [now apply Qle_bool_iff | ring].
  - left. split; [| ring].
    apply Qnot_le_lt. intros Hc. apply Qle_bool_iff in Hc. congruence.
Qed.


(** * Confidence gating *)

(** C2: with one confidence value per frame both gates return; every
    frame whose confidence is at most the pitch threshold is zero in the
    filtered F0, every frame whose confidence is at most the loudness
    threshold is zero in the filtered loudness, both gates reading the
    same confidence sequence; and these two sequences are what a run of
    the cell leaves in [f0_filtered] and [loudness_filtered]. *)
Theorem confidence_gating (p : Params) (e : Env) :
  length (confidence e) = length (f0 e) ->
  length (loudness e) = length (f0 e) ->
  exists ff lf,
    confidence_gate (f0 e) (confidence e) (pitch_conf_filter p) = inr ff /\
    confidence_gate (loudness e) (confidence e) (loudness_conf_filter p)
    = inr lf /\
    (forall i c,
       nth_error (confidence e) i = Some c ->
       (c <= pitch_conf_filter p ->
        exists v, nth_error ff i = Some v /\ v == 0) /\
       (c <= loudness_conf_filter p ->
        exists v, nth_error lf i = Some v /\ v == 0)) /\
    (forall e',
       exec (adjust_control_signals p) e = inr e' ->
       f0_filtered e' = ff /\ loudness_filtered e' = lf).
Proof.
  intros Hc Hl.
  assert (length (confidence e) = length (loudness e)) as Hcl by congruence.
  destruct (confidence_gate_frames (f0 e) (confidence e)
              (pitch_conf_filter p) Hc) as (ff & E1 & _).
  destruct (confidence_gate_frames (loudness e) (confidence e)
              (loudness_conf_filter p) Hcl) as (lf & E2 & _).
  exists ff, lf. repeat split; try assumption.
  - intros Hle. now apply (gated_frame_zero _ _ _ _ _ _ Hc E1 H).
  - intros Hle. now apply (gated_frame_zero _ _ _ _ _ _ Hcl E2 H).
  - apply exec_adjusted in H.
    pose proof (adj_f0_filtered _ _ _ H) as A. congruence.
  - apply exec_adjusted in H.
    pose proof (adj_loudness_filtered _ _ _ H) as A. congruence.
Qed.

Lemma confidence_gating_demo :
  exists ff lf,
    confidence_gate (f0 demo_env) (confidence demo_env)
                    (pitch_conf_filter demo_params) = inr ff /\
    confidence_gate (loudness demo_env) (confidence demo_env)
                    (loudness_conf_filter demo_params) = inr lf /\
    (forall i c,
       nth_error (confidence demo_env) i = Some c ->
       (c <= pitch_conf_filter demo_params ->
        exists v, nth_error ff i = Some v /\ v == 0) /\
       (c <= loudness_conf_filter demo_params ->
        exists v, nth_error lf i = Some v /\ v == 0)) /\
    (forall e',
       exec (adjust_control_signals demo_params) demo_env = inr e' ->
       f0_filtered e' = ff /\ loudness_filtered e' = lf).
Proof.
  apply (confidence_gating demo_params demo_env); reflexivity.
Defined.

(** * Order of smoothing and normalization *)

(** Smoothing and normalization do not commute: the zero padding of the
    moving average sees the raw zeros before normalization and the
    normalized values after it. *)
Example smoothing_then_normalizing_differs :
  exists a b,
    moving_average [3; 3; 3] 1 = inr a /\
    moving_average (normalize [3; 3; 3] 1 1) 1 = inr b /\
    ~ Forall2 Qeq (normalize a 1 1) b.
Proof.
  eexists; eexists. split; [reflexivity |]. split; [reflexivity |].
  intros H. inversion H as [| ? ? ? ? Hhd _]; subst.
  vm_compute in Hhd. discriminate Hhd.
Qed.

(** The sequences a completed run leaves have one value per frame. *)
Lemma adjusted_lengths (p : Params) (e e' : Env) :
  length (confidence e) = length (f0 e) ->
  length (loudness e) = length (f0 e) ->
  adjusted p e e' ->
  length (f0_shifted e') = length (f0 e) /\
  length (loudness_scaled e') = length (f0 e) /\
  length (loud_norm e') = length (f0 e).
Proof.
  intros Hc Hl [_ A1 A2 A3 A4 A5 A6 _ _ _ _].
  destruct (confidence_gate_frames (f0 e) (confidence e)
              (pitch_conf_filter p) Hc) as (y1 & E1 & L1 & _).
  destruct (confidence_gate_frames (loudness e) (confidence e)
              (loudness_conf_filter p)) as (y2 & E2 & L2 & _);
    [congruence |].
  rewrite A1 in E1. injection E1 as <-.
  rewrite A2 in E2. injection E2 as <-.
  assert (length (loudness_scaled e') = length (f0 e)) as L5
    by (rewrite A5, length_mul_scalar, (length_floor_loudness _ _ _ A4);
        congruence).
  repeat split.
  - now rewrite A3, length_shift_octaves.
  - exact L5.
  - unfold normalize_channel in A6.
    destruct (np.index (data_mean e) 1); [discriminate |].
    destruct (np.index (data_std e) 1); [discriminate |].
    simpl in A6. injection A6 as <-. now rewrite length_normalize.
Qed.

(** C3: with a nonzero pitch smoothing radius [r], frame [i] of [f0_t] is
    the sum of the octave-shifted, unnormalized F0 values in reach of the
    frame over the window size [2 r + 1], and frame [i] of the normalized
    F0 is that average minus the pitch mean, over the pitch deviation;
    frame [i] of the normalized loudness is the scaled loudness minus the
    loudness mean, over the loudness deviation, and a nonzero loudness
    radius then averages these normalized values. *)
Theorem smoothing_order (p : Params) (e : Env) :
  well_formed p e ->
  pitch_smoothing p <> 0%nat ->
  exists e' m0 s0 m1 s1,
    exec (adjust_control_signals p) e = inr e' /\
    nth_error (data_mean e) 0 = Some m0 /\
    nth_error (data_std e) 0 = Some s0 /\
    nth_error (data_mean e) 1 = Some m1 /\
    nth_error (data_std e) 1 = Some s1 /\
    forall i,
      (i < length (f0 e))%nat ->
      (exists a n,
         nth_error (torch.elements (f0_t e')) i = Some a /\
         a == Qsum (window (f0_shifted e') i (pitch_smoothing p))
              / inject_Z (Z.of_nat (2 * pitch_smoothing p + 1)) /\
         nth_error (torch.elements (f0_norm_t e')) i = Some n /\
         n == (a - m0) / s0) /\
      (exists v l b,
         nth_error (loudness_scaled e') i = Some v /\
         nth_error (loud_norm e') i = Some l /\
         l == (v - m1) / s1 /\
         nth_error (torch.elements (loud_norm_t e')) i = Some b /\
         (loudness_smoothing p = 0%nat -> b = l) /\
         (loudness_smoothing p <> 0%nat ->
          b == Qsum (window (loud_norm e') i (loudness_smoothing p))
               / inject_Z (Z.of_nat (2 * loudness_smoothing p + 1)))).
Proof.
  intros Hwf Hps. destruct (run_adjusted p e Hwf) as (e' & He' & A).
  destruct Hwf as (Hc & Hl & Hm & Hs & _).
  destruct (adjusted_lengths p e e' Hc Hl A) as (L3 & L5 & L6).
  destruct (normalize_channel_t_total (f0_t e') 0 e)
    as (m0 & s0 & M0 & S0 & N0); [lia | lia |].
  destruct (normalize_channel_total (loudness_scaled e') 1 e)
    as (m1 & s1 & M1 & S1 & N1); [lia | lia |].
  exists e', m0, s0, m1, s1.
  repeat (split; [assumption |]).
  destruct A as [_ _ _ _ _ _ A6 A7 A8 A9 _].
  rewrite N0 in A9. injection A9 as A9.
  rewrite N1 in A6. injection A6 as A6.
  unfold smoothed, torch.of_array in A7, A8.
  destruct (Nat.eqb_spec (pitch_smoothing p) 0) as [| _]; [contradiction |].
  destruct (smooth_frames _ _ _ A7) as (_ & _ & F7).
  intros i Hi. split.
  - destruct (F7 i) as (a & Ha & Hav); [lia |].
    exists a, ((a - m0) / s0).
    split; [exact Ha |]. split; [exact Hav |]. split; [| reflexivity].
    rewrite <- A9, elements_map_signal, nth_error_map, Ha. reflexivity.
  - destruct (nth_error (loudness_scaled e') i) as [v |] eqn:Hv;
      [| apply nth_error_None in Hv; lia].
    assert (nth_error (loud_norm e') i = Some ((v - m1) / s1)) as Hl6.
    { rewrite <- A6. unfold normalize, np.div_scalar, np.sub_scalar.
      now rewrite !nth_error_map, Hv. }
    destruct (Nat.eqb_spec (loudness_smoothing p) 0) as [Hq | Hq].
    + injection A8 as A8.
      exists v, ((v - m1) / s1), ((v - m1) / s1).
      rewrite <- A8. cbn [torch.elements].
      split; [reflexivity |]. split; [exact Hl6 |].
      split; [reflexivity |]. split; [exact Hl6 |].
      split; [reflexivity | contradiction].
    + destruct (smooth_frames _ _ _ A8) as (_ & _ & F8).
      destruct (F8 i) as (b & Hb & Hbv); [lia |].
      exists v, ((v - m1) / s1), b.
      split; [reflexivity |]. split; [exact Hl6 |].
      split; [reflexivity |]. split; [exact Hb |].
      split; [contradiction | intros _; exact Hbv].
Qed.

Lemma smoothing_order_demo :
  exists e' m0 s0 m1 s1,
    exec (adjust_control_signals demo_params) demo_env = inr e' /\
    nth_error (data_mean demo_env) 0 = Some m0 /\
    nth_error (data_std demo_env) 0 = Some s0 /\
    nth_error (data_mean demo_env) 1 = Some m1 /\
    nth_error (data_std demo_env) 1 = Some s1 /\
    forall i,
      (i < length (f0 demo_env))%nat ->
      (exists a n,
         nth_error (torch.elements (f0_t e')) i = Some a /\
         a == Qsum (window (f0_shifted e') i (pitch_smoothing demo_params))
              / inject_Z (Z.of_nat (2 * pitch_smoothing demo_params + 1)) /\
         nth_error (torch.elements (f0_norm_t e')) i = Some n /\
         n == (a - m0) / s0) /\
      (exists v l b,
         nth_error (loudness_scaled e') i = Some v /\
         nth_error (loud_norm e') i = Some l /\
         l == (v - m1) / s1 /\
         nth_error (torch.elements (loud_norm_t e')) i = Some b /\
         (loudness_smoothing demo_params = 0%nat -> b = l) /\
         (loudness_smoothing demo_params <> 0%nat ->
          b == Qsum (window (loud_norm e') i (loudness_smoothing demo_params))
               / inject_Z
                   (Z.of_nat (2 * loudness_smoothing demo_params + 1)))).
Proof.
  apply (smoothing_order demo_params demo_env).
  - check_well_formed.
  - simpl. discriminate.
Defined.

(** * The end-to-end gating scenario *)

(** C4: F0 = [440, 440, 0] with confidence [0.9, 0.05, 0.9] and pitch
    threshold 0.1 is filtered to [440, 0, 0], by the gating expression and
    in the kernel state the cell leaves. *)
Theorem gating_scenario :
  confidence_gate [440; 440; 0] [0.9; 0.05; 0.9] 0.1 = inr [440; 0; 0] /\
  exists e',
    exec (adjust_control_signals demo_params) demo_env = inr e' /\
    f0_filtered e' = [440; 0; 0].
Proof.
  split; [vm_compute; reflexivity |].
  eexists; split; [vm_compute; reflexivity | reflexivity].
Qed.

(** * Octave shift *)

Lemma Qmult_1_r_eq (x : Q) : x * 1 = x.
Proof.
  destruct x as [n d]. unfold Qmult; simpl.
  now rewrite Z.mul_1_r, Pos.mul_1_r.
Qed.

(** C5: for a shift between -4 and 4 every shifted value is the filtered
    value times 2 to the shift: times the integer [2 ^ k] for [k >= 0],
    and the value that times [2 ^ (- k)] gives the filtered value back for
    [k <= 0]; a shift of 0 returns the sequence itself. *)
Theorem octave_shift_scaling (x : np.array) (k : Z) :
  (-4 <= k <= 4)%Z ->
  Forall2 (fun v o =>
             ((0 <= k)%Z -> o == v * inject_Z (2 ^ k)) /\
             ((k <= 0)%Z -> o * inject_Z (2 ^ (- k)) == v))
          x (shift_octaves x k) /\
  shift_octaves x 0 = x.
Proof.
  intros Hk. split.
  - assert (k = -4 \/ k = -3 \/ k = -2 \/ k = -1 \/ k = 0 \/
            k = 1 \/ k = 2 \/ k = 3 \/ k = 4)%Z as Hcases by lia.
    unfold shift_octaves, np.mul_scalar.
    induction x as [| v x IH]; simpl; constructor; [| exact IH].
    clear IH.
    destruct Hcases
      as [-> | [-> | [-> | [-> | [-> | [-> | [-> | [-> | ->]]]]]]]];
      split; intros Hs; try lia; clear Hs Hk;
      match goal with
      | |- context [inject_Z ?z] =>
          let z' := eval vm_compute in z in change z with z'
      end;
      match goal with
      | |- context [Qpower 2 ?z] =>
          let q := eval vm_compute in (Qpower 2 z) in
          change (Qpower 2 z) with q
      end;
      unfold inject_Z; field.
  - unfold shift_octaves, np.mul_scalar.
    induction x as [| v x IH]; [reflexivity |].
    cbn [map]. f_equal; [| exact IH].
    change (2 ^ 0) with 1. apply Qmult_1_r_eq.
Qed.

Lemma octave_shift_scaling_up_one :
  Forall2 (fun v o =>
             ((0 <= 1)%Z -> o == v * inject_Z (2 ^ 1)) /\
             ((1 <= 0)%Z -> o * inject_Z (2 ^ (- (1))) == v))
          [440; 0; 0] (shift_octaves [440; 0; 0] 1) /\
  shift_octaves [440; 0; 0] 0 = [440; 0; 0].
Proof. apply (octave_shift_scaling [440; 0; 0] 1). lia. Defined.

(** * Smoothing with radius 0 *)

(** C6: with a pitch smoothing radius of 0 the cell leaves in [f0_t] the
    tensor made of the shifted F0, and with a loudness smoothing radius of
    0 it leaves in [loud_norm_t] the tensor made of the normalized
    loudness: the convolution is not run. *)
Theorem smoothing_radius_zero (p : Params) (e : Env) :
  well_formed p e ->
  exists e',
    exec (adjust_control_signals p) e = inr e' /\
    (pitch_smoothing p = 0%nat ->
     f0_t e' = torch.of_array (f0_shifted e')) /\
    (loudness_smoothing p = 0%nat ->
     loud_norm_t e' = torch.of_array (loud_norm e')).
Proof.
  intros Hwf. destruct (run_adjusted p e Hwf) as (e' & He' & A).
  exists e'. split; [exact He' |].
  pose proof (adj_f0_t _ _ _ A) as F. pose proof (adj_loud_norm_t _ _ _ A) as L.
  unfold smoothed in F, L.
  split; intros Hr; rewrite Hr in *; simpl in *; congruence.
Qed.

Lemma smoothing_radius_zero_demo :
  exists e',
    exec (adjust_control_signals (mkParams 1 0.5 0.06 0 0.1 0 0)) demo_env
    = inr e' /\
    (pitch_smoothing (mkParams 1 0.5 0.06 0 0.1 0 0) = 0%nat ->
     f0_t e' = torch.of_array (f0_shifted e')) /\
    (loudness_smoothing (mkParams 1 0.5 0.06 0 0.1 0 0) = 0%nat ->
     loud_norm_t e' = torch.of_array (loud_norm e')).
Proof.
  apply (smoothing_radius_zero (mkParams 1 0.5 0.06 0 0.1 0 0) demo_env).
  check_well_formed.
Defined.

(** * Normalization round trip *)

(** C7: for a nonzero standard deviation, denormalizing every value of a
    normalized sequence gives the original values back, exactly over the
    rationals. *)
Theorem normalization_round_trip (x : list Q) (m s : Q) :
  ~ s == 0 ->
  Forall2 Qeq (map (fun y => denormalize y m s) (normalize x m s)) x.
Proof.
  intros Hs. unfold normalize, np.div_scalar, np.sub_scalar.
  rewrite !map_map.
  induction x as [| v x IH]; simpl; constructor; [| exact IH].
  unfold denormalize. field. exact Hs.
Qed.

Lemma normalization_round_trip_demo :
  Forall2 Qeq
    (map (fun y => denormalize y 100 50) (normalize [440; 0; 880] 100 50))
    [440; 0; 880].
Proof.
  apply (normalization_round_trip [440; 0; 880] 100 50).
  intros H. vm_compute in H. discriminate H.
Defined.

(** * The control tensor *)

Lemma shape_vector (t : torch.signal) (n : nat) :
  torch.shape t = [n] -> exists l, t = torch.Vector l /\ length l = n.
Proof.
  destruct t as [v | l]; simpl; [discriminate |].
  intros [= <-]. now exists l.
Qed.

(** C8, as stated, fails on a one-frame clip that is smoothed: with only
    the pitch row smoothed [torch.stack] raises, and with both rows
    smoothed the control tensor is a pair of two numbers, of shape (2,),
    not a stack of two rows of one frame. *)
Lemma control_tensor_one_frame :
  exec (adjust_control_signals (mkParams 1 0.5 0.06 0 0.1 1 0)) one_frame_env
  = inl RuntimeError /\
  exists e' a b,
    exec (adjust_control_signals (mkParams 1 0.5 0.06 0 0.1 1 1))
         one_frame_env = inr e' /\
    control e' = torch.Pair a b.
Proof.
  split; [vm_compute; reflexivity |].
  eexists; eexists; eexists.
  split; [vm_compute; reflexivity | reflexivity].
Qed.

(** C8, amended: on well-formed inputs whose clip is not a smoothed single
    frame, the cell leaves in [control] the stack of two rows with one
    value per frame of the input F0.  The first row is [f0_norm_t], frame
    by frame the value of [f0_t] minus the pitch mean over the pitch
    deviation; the second row is [loud_norm_t], the scaled loudness minus
    the loudness mean over the loudness deviation, averaged over the
    window when the loudness radius is nonzero.  [f0_t] keeps the shifted,
    possibly smoothed, unnormalized F0, and the synthesis call receives
    [f0_t] and the stack. *)
Theorem control_tensor_shape
    (model : torch.tensor -> torch.stacked -> torch.tensor)
    (p : Params) (e : Env) :
  well_formed p e ->
  (length (f0 e) = 1%nat ->
   pitch_smoothing p = 0%nat /\ loudness_smoothing p = 0%nat) ->
  exists e' m0 s0 m1 s1 f row0 row1,
    exec (adjust_control_signals p) e = inr e' /\
    control e' = torch.Rows row0 row1 /\
    f0_norm_t e' = torch.Vector row0 /\
    loud_norm_t e' = torch.Vector row1 /\
    f0_t e' = torch.Vector f /\
    length row0 = length (f0 e) /\
    length row1 = length (f0 e) /\
    length f = length (f0 e) /\
    nth_error (data_mean e) 0 = Some m0 /\
    nth_error (data_std e) 0 = Some s0 /\
    nth_error (data_mean e) 1 = Some m1 /\
    nth_error (data_std e) 1 = Some s1 /\
    (forall i,
       (i < length (f0 e))%nat ->
       (exists a n,
          nth_error f i = Some a /\
          (pitch_smoothing p = 0%nat ->
           nth_error (f0_shifted e') i = Some a) /\
          (pitch_smoothing p <> 0%nat ->
           a == Qsum (window (f0_shifted e') i (pitch_smoothing p))
                / inject_Z (Z.of_nat (2 * pitch_smoothing p + 1))) /\
          nth_error row0 i = Some n /\
          n == (a - m0) / s0) /\
       (exists v l b,
          nth_error (loudness_scaled e') i = Some v /\
          nth_error (loud_norm e') i = Some l /\
          l == (v - m1) / s1 /\
          nth_error row1 i = Some b /\
          (loudness_smoothing p = 0%nat -> b = l) /\
          (loudness_smoothing p <> 0%nat ->
           b == Qsum (window (loud_norm e') i (loudness_smoothing p))
                / inject_Z (Z.of_nat (2 * loudness_smoothing p + 1))))) /\
    synthesise model e' = inr (model f (torch.Rows row0 row1)).
Proof.
  intros Hwf Hone. destruct (run_adjusted p e Hwf) as (e' & He' & A).
  destruct Hwf as (Hc & Hl & Hm & Hs & Hne & _).
  destruct (adjusted_lengths p e e' Hc Hl A) as (L3 & L5 & L6).
  destruct (normalize_channel_t_total (f0_t e') 0 e)
    as (m0 & s0 & M0 & S0 & N0); [lia | lia |].
  destruct (normalize_channel_total (loudness_scaled e') 1 e)
    as (m1 & s1 & M1 & S1 & N1); [lia | lia |].
  destruct A as [_ _ _ _ _ _ A6 A7 A8 A9 A10].
  rewrite N0 in A9. injection A9 as A9.
  rewrite N1 in A6. injection A6 as A6.
  unfold torch.of_array in A7, A8.
  (* both rows keep the frame dimension *)
  assert (forall r, (r =? 0)%nat || negb (length (f0 e) =? 1)%nat = false ->
                    r <> 0%nat /\ length (f0 e) = 1%nat) as Hsq.
  { intros r Hr. apply orb_false_elim in Hr as [Hr0 Hr1].
    apply Nat.eqb_neq in Hr0. apply negb_false_iff, Nat.eqb_eq in Hr1.
    now split. }
  destruct (smoothed_total (f0_shifted e') (pitch_smoothing p))
    as (t7 & E7 & S7).
  { destruct Hne as [Hne | [Hne _]]; [left | now right].
    now apply (nonempty_length (f0 e)). }
  rewrite A7 in E7. injection E7 as <-. rewrite L3 in S7.
  destruct ((pitch_smoothing p =? 0)%nat || negb (length (f0 e) =? 1)%nat)
    eqn:Bp; [| destruct (Hsq _ Bp) as [? H1]; destruct (Hone H1); tauto].
  destruct (shape_vector _ _ S7) as (f & Ef & Lf).
  destruct (smoothed_total (loud_norm e') (loudness_smoothing p))
    as (t8 & E8 & S8).
  { destruct Hne as [Hne | [_ Hne]]; [left | now right].
    now apply (nonempty_length (f0 e)). }
  rewrite A8 in E8. injection E8 as <-. rewrite L6 in S8.
  destruct ((loudness_smoothing p =? 0)%nat || negb (length (f0 e) =? 1)%nat)
    eqn:Bl; [| destruct (Hsq _ Bl) as [? H1]; destruct (Hone H1); tauto].
  destruct (shape_vector _ _ S8) as (row1 & E1 & L1).
  rewrite Ef in A9. cbn [torch.map_signal] in A9.
  set (row0 := map (fun v => (v - m0) / s0) f) in A9.
  assert (length row0 = length (f0 e)) as L0
    by (subst row0; now rewrite length_map).
  rewrite <- A9, E1 in A10. unfold torch.stack in A10.
  rewrite L0, L1, Nat.eqb_refl in A10. injection A10 as A10.
  exists e', m0, s0, m1, s1, f, row0, row1.
  split; [exact He' |]. split; [now symmetry |]. split; [now symmetry |].
  split; [exact E1 |]. split; [exact Ef |].
  split; [exact L0 |]. split; [exact L1 |]. split; [exact Lf |].
  split; [exact M0 |]. split; [exact S0 |].
  split; [exact M1 |]. split; [exact S1 |].
  split.
  - intros i Hi. split.
    + destruct (nth_error f i) as [a |] eqn:Ha;
        [| apply nth_error_None in Ha; lia].
      exists a, ((a - m0) / s0). split; [reflexivity |].
      unfold smoothed in A7.
      split; [| split; [| split; [| reflexivity]]].
      * intros Hp. rewrite Hp in A7. simpl in A7.
        rewrite Ef in A7. injection A7 as ->. exact Ha.
      * intros Hp.
        destruct (Nat.eqb_spec (pitch_smoothing p) 0) as [| _];
          [contradiction |].
        destruct (smooth_frames _ _ _ A7) as (_ & _ & F7).
        destruct (F7 i) as (a' & Ha' & Hav); [lia |].
        rewrite Ef in Ha'. cbn [torch.elements] in Ha'.
        rewrite Ha in Ha'. injection Ha' as <-. exact Hav.
      * subst row0. now rewrite nth_error_map, Ha.
    + destruct (nth_error (loudness_scaled e') i) as [v |] eqn:Hv;
        [| apply nth_error_None in Hv; lia].
      assert (nth_error (loud_norm e') i = Some ((v - m1) / s1)) as Hl6.
      { rewrite <- A6. unfold normalize, np.div_scalar, np.sub_scalar.
        now rewrite !nth_error_map, Hv. }
      unfold smoothed in A8.
      destruct (Nat.eqb_spec (loudness_smoothing p) 0) as [Hq | Hq].
      * rewrite E1 in A8. injection A8 as A8.
        exists v, ((v - m1) / s1), ((v - m1) / s1).
        split; [reflexivity |]. split; [exact Hl6 |].
        split; [reflexivity |]. split; [now rewrite <- A8 |].
        split; [reflexivity | contradiction].
      * destruct (smooth_frames _ _ _ A8) as (_ & _ & F8).
        destruct (F8 i) as (b & Hb & Hbv); [lia |].
        rewrite E1 in Hb. cbn [torch.elements] in Hb.
        exists v, ((v - m1) / s1), b.
        split; [reflexivity |]. split; [exact Hl6 |].
        split; [reflexivity |]. split; [exact Hb |].
        split; [contradiction | intros _; exact Hbv].
  - unfold synthesise. rewrite Ef, <- A10. reflexivity.
Qed.

Lemma control_tensor_shape_demo :
  exists e' m0 s0 m1 s1 f row0 row1,
    exec (adjust_control_signals demo_params) demo_env = inr e' /\
    control e' = torch.Rows row0 row1 /\
    f0_norm_t e' = torch.Vector row0 /\
    loud_norm_t e' = torch.Vector row1 /\
    f0_t e' = torch.Vector f /\
    length row0 = length (f0 demo_env) /\
    length row1 = length (f0 demo_env) /\
    length f = length (f0 demo_env) /\
    nth_error (data_mean demo_env) 0 = Some m0 /\
    nth_error (data_std demo_env) 0 = Some s0 /\
    nth_error (data_mean demo_env) 1 = Some m1 /\
    nth_error (data_std demo_env) 1 = Some s1 /\
    (forall i,
       (i < length (f0 demo_env))%nat ->
       (exists a n,
          nth_error f i = Some a /\
          (pitch_smoothing demo_params = 0%nat ->
           nth_error (f0_shifted e') i = Some a) /\
          (pitch_smoothing demo_params <> 0%nat ->
           a == Qsum (window (f0_shifted e') i
                        (pitch_smoothing demo_params))
                / inject_Z
                    (Z.of_nat (2 * pitch_smoothing demo_params + 1))) /\
          nth_error row0 i = Some n /\
          n == (a - m0) / s0) /\
       (exists v l b,
          nth_error (loudness_scaled e') i = Some v /\
          nth_error (loud_norm e') i = Some l /\
          l == (v - m1) / s1 /\
          nth_error row1 i = Some b /\
          (loudness_smoothing demo_params = 0%nat -> b = l) /\
          (loudness_smoothing demo_params <> 0%nat ->
           b == Qsum (window (loud_norm e') i
                        (loudness_smoothing demo_params))
                / inject_Z
                    (Z.of_nat (2 * loudness_smoothing demo_params + 1))))) /\
    synthesise (fun t _ => t) e'
    = inr ((fun t _ => t) f (torch.Rows row0 row1)).
Proof.
  apply (control_tensor_shape (fun t _ => t) demo_params demo_env).
  - check_well_formed.
  - simpl. intros H. discriminate H.
Defined.

Lemma exec_inputs_only (p : Params) (e1 e2 : Env) :
  same_inputs e1 e2 ->
  exec (adjust_control_signals p) e1 = exec (adjust_control_signals p) e2.
Proof.
  destruct e1 as [f c l m s a1 a2 a3 a4 a5 a6 a7 a8 a9 a10].
  destruct e2 as [f' c' l' m' s' b1 b2 b3 b4 b5 b6 b7 b8 b9 b10].
  unfold same_inputs; simpl. intros (-> & -> & -> & -> & ->).
  unfold adjust_control_signals.
  repeat (first [ rewrite !exec_assign_seq
                | rewrite !exec_smoothing_seq
                | rewrite !exec_assign ];
          unfold normalize_channel, normalize_channel_t;
          cbn [f0 confidence loudness data_mean data_std f0_filtered
               loudness_filtered f0_shifted loudness_floored loudness_scaled
               loud_norm f0_t loud_norm_t f0_norm_t control
               set_f0_filtered set_loudness_filtered set_f0_shifted
               set_loudness_floored set_loudness_scaled set_loud_norm
               set_f0_t set_loud_norm_t set_f0_norm_t set_control];
          try match goal with
              | |- match ?r with inl _ => _ | inr _ => _ end = _ =>
                  destruct r; [reflexivity |]
              end;
          try match goal with
              | |- context [if ?b then _ else _] => destruct b
              end;
          cbn [f0 confidence loudness data_mean data_std f0_filtered
               loudness_filtered f0_shifted loudness_floored loudness_scaled
               loud_norm f0_t loud_norm_t f0_norm_t control
               set_f0_filtered set_loudness_filtered set_f0_shifted
               set_loudness_floored set_loudness_scaled set_loud_norm
               set_f0_t set_loud_norm_t set_f0_norm_t set_control]).
  all: reflexivity.
Qed.

(** C9: a completed run leaves the raw F0, confidence and loudness
    sequences and the checkpoint statistics as they were; run again from
    any kernel state holding the same raw sequences and statistics, in
    particular from the state the run itself left, the cell with the same
    parameters completes in the identical state. *)
Theorem rerun_identical (p : Params) (e1 e2 e1' : Env) :
  same_inputs e1 e2 ->
  exec (adjust_control_signals p) e1 = inr e1' ->
  same_inputs e1' e1 /\
  exec (adjust_control_signals p) e2 = inr e1' /\
  exec (adjust_control_signals p) e1' = inr e1'.
Proof.
  intros Hsame Hrun.
  pose proof (adj_inputs _ _ _ (exec_adjusted p e1 e1' Hrun)) as Hkept.
  split; [exact Hkept |]. split.
  - now rewrite <- (exec_inputs_only p e1 e2 Hsame).
  - now rewrite (exec_inputs_only p e1' e1 Hkept).
Qed.


Lemma rerun_identical_demo :
  exists e',
    same_inputs e' demo_env /\
    exec (adjust_control_signals demo_params)
         (set_f0_t (torch.Vector [1; 2])
            (set_control (torch.Rows [7] [7]) demo_env)) = inr e' /\
    exec (adjust_control_signals demo_params) e' = inr e'.
Proof.
  eexists.
  apply (rerun_identical demo_params demo_env
           (set_f0_t (torch.Vector [1; 2])
              (set_control (torch.Rows [7] [7]) demo_env))).
  - vm_compute. repeat split.
  - vm_compute. reflexivity.
Defined.

(** * Boundary behaviour of the moving average *)

(** A constant sequence of threes smoothed with radius 1: the middle frame
    keeps its value, the two end frames drop to two. *)
Example moving_average_attenuates_ends :
  exists y, moving_average demo_clip 1 = inr y /\ Forall2 Qeq y [2; 3; 2].
Proof.
  eexists; split; [vm_compute; reflexivity |].
  repeat constructor.
Qed.

(** C10, as stated, fails on the shortest clips: smoothing a clip without
    frames raises, the kernel being longer than the padded input, and
    smoothing a one-frame clip returns a tensor without a frame dimension,
    so that no output of the input's length exists. *)
Lemma smoothing_short_clips :
  smooth (torch.of_array []) 1 = inl RuntimeError /\
  exists y,
    smooth (torch.of_array [3]) 1 = inr y /\
    torch.shape y <> torch.shape (torch.of_array [3]).
Proof.
  split; [reflexivity |].
  eexists; split; [vm_compute; reflexivity |].
  discriminate.
Qed.

(** C10, amended: for a radius [r > 0] and a clip of at least two frames
    the smoothing returns a one-dimensional tensor with as many frames as
    it was given; frame [i] is the sum of the samples with index in
    [i - r .. i + r] that exist, divided by the full window size
    [2 r + 1]; within [r] frames of either end fewer than [2 r + 1]
    samples exist, the missing ones counting as zeros, and elsewhere the
    window is full.  On a clip without frames the smoothing raises. *)
Theorem moving_average_boundary (x : np.array) (r : nat) :
  (0 < r)%nat ->
  (2 <= length x)%nat ->
  smooth (torch.of_array []) r = inl RuntimeError /\
  exists y,
    smooth (torch.of_array x) r = inr (torch.Vector y) /\
    length y = length x /\
    forall i,
      (i < length x)%nat ->
      (exists v,
         nth_error y i = Some v /\
         v == Qsum (window x i r) / inject_Z (Z.of_nat (2 * r + 1))) /\
      ((i < r \/ length x <= i + r)%nat ->
       (length (window x i r) < 2 * r + 1)%nat) /\
      ((r <= i)%nat -> (i + r < length x)%nat ->
       length (window x i r) = (2 * r + 1)%nat).
Proof.
  intros _ Hx. split; [apply smooth_empty |].
  unfold torch.of_array.
  destruct (smooth (torch.Vector x) r) as [err | t] eqn:E.
  - rewrite smooth_vector in E.
    rewrite moving_average_nonempty in E; [discriminate E |].
    destruct x; [simpl in Hx; lia | discriminate].
  - destruct (smooth_frames _ _ _ E) as (Lt & St & Ft).
    destruct (Nat.eqb_spec (length x) 1) as [H1 | _]; [lia |].
    destruct (shape_vector _ _ St) as (y & -> & Ly).
    exists y. split; [reflexivity |]. split; [exact Ly |].
    intros i Hi. split; [| split].
    + apply (Ft i Hi).
    + apply length_window_boundary.
    + apply length_window_interior.
Qed.

Lemma moving_average_boundary_demo :
  smooth (torch.of_array []) 1 = inl RuntimeError /\
  exists y,
    smooth (torch.of_array demo_clip) 1 = inr (torch.Vector y) /\
    length y = length demo_clip /\
    forall i,
      (i < length demo_clip)%nat ->
      (exists v,
         nth_error y i = Some v /\
         v == Qsum (window demo_clip i 1) / inject_Z (Z.of_nat (2 * 1 + 1))) /\
      ((i < 1 \/ length demo_clip <= i + 1)%nat ->
       (length (window demo_clip i 1) < 2 * 1 + 1)%nat) /\
      ((1 <= i)%nat -> (i + 1 < length demo_clip)%nat ->
       length (window demo_clip i 1) = (2 * 1 + 1)%nat).
Proof.
  apply (moving_average_boundary demo_clip 1).
  - lia.
  - simpl. lia.
Defined.

(** * Further properties of the gates *)

Lemma combine_gt (x conf : np.array) (threshold : Q) :
  combine x (np.gt conf threshold)
  = map (fun xc => (fst xc, negb (Qle_bool (snd xc) threshold)))
        (combine x conf).
Proof.
  revert conf; induction x as [| v x IH]; intros [| c conf]; simpl;
    try reflexivity.
  now rewrite <- IH.
Qed.

(** With one confidence value per frame, the gate as a frame-wise map. *)
Lemma confidence_gate_zip (x conf : np.array) (threshold : Q) :
  length conf = length x ->
  confidence_gate x conf threshold
  = inr (map (fun xc =>
                fst xc * np.of_bool (negb (Qle_bool (snd xc) threshold)))
             (combine x conf)).
Proof.
  intros Hlen. unfold confidence_gate, np.mul_mask.
  rewrite broadcast_same_length
    by (unfold np.gt; now rewrite length_map).
  now rewrite combine_gt, map_map.
Qed.

(** A gate whose threshold lies below every confidence value changes
    nothing: the form's default threshold 0 switches the gate off as long
    as every confidence is positive. *)
Theorem confidence_gate_off (x conf : np.array) (threshold : Q) :
  length conf = length x ->
  Forall (fun c => threshold < c) conf ->
  exists y, confidence_gate x conf threshold = inr y /\ Forall2 Qeq y x.
Proof.
  intros Hlen Hall. rewrite confidence_gate_zip by exact Hlen.
  eexists; split; [reflexivity |].
  revert conf Hlen Hall.
  induction x as [| v x IH]; intros [| c conf] Hlen Hall; simpl in *;
    try discriminate; constructor.
  - inversion Hall as [| ? ? Hc _]; subst.
    apply gt_spec in Hc. rewrite Hc. simpl. ring.
  - apply IH; [lia | now inversion Hall].
Qed.

Lemma confidence_gate_off_demo :
  exists y,
    confidence_gate [440; 220] [0.9; 0.05] 0 = inr y /\
    Forall2 Qeq y [440; 220].
Proof.
  apply (confidence_gate_off [440; 220] [0.9; 0.05] 0).
  - reflexivity.
  - repeat constructor.
Defined.

(** Raising the threshold only silences more frames: each frame of the
    stricter gate is zero or is the frame the laxer gate gave. *)
Theorem confidence_gate_monotone (x conf : np.array) (t1 t2 : Q) :
  length conf = length x ->
  t1 <= t2 ->
  exists y1 y2,
    confidence_gate x conf t1 = inr y1 /\
    confidence_gate x conf t2 = inr y2 /\
    Forall2 (fun a b => b == 0 \/ b = a) y1 y2.
Proof.
  intros Hlen Hle. rewrite !confidence_gate_zip by exact Hlen.
  eexists; eexists; split; [reflexivity |]; split; [reflexivity |].
  revert conf Hlen.
  induction x as [| v x IH]; intros [| c conf] Hlen; simpl in *;
    try discriminate; constructor; [| apply IH; lia].
  destruct (Qle_bool c t2) eqn:H2; simpl.
  - left. ring.
  - right. destruct (Qle_bool c t1) eqn:H1; [| reflexivity].
    apply Qle_bool_iff in H1.
    assert (Qle_bool c t2 = true) as Habs
      by (apply Qle_bool_iff; now apply Qle_trans with t1).
    congruence.
Qed.

Lemma confidence_gate_monotone_demo :
  exists y1 y2,
    confidence_gate [440; 220] [0.9; 0.05] 0 = inr y1 /\
    confidence_gate [440; 220] [0.9; 0.05] 0.1 = inr y2 /\
    Forall2 (fun a b => b == 0 \/ b = a) y1 y2.
Proof.
  apply (confidence_gate_monotone [440; 220] [0.9; 0.05] 0 0.1).
  - reflexivity.
  - vm_compute. discriminate.
Defined.

(** * Exceptions raised by "Adjust Control Signals" *)

Lemma broadcast_error {A B C : Type} (f : A -> B -> C)
    (a : list A) (b : list B) (err : PyError) :
  np.broadcast f a b = inl err ->
  err = ValueError /\
  length a <> length b /\ length a <> 1%nat /\ length b <> 1%nat.
Proof.
  unfold np.broadcast.
  destruct (Nat.eqb_spec (length a) (length b)) as [| Hne]; [discriminate |].
  destruct a as [| x [| x' a]]; destruct b as [| y [| y' b]];
    simpl in *; try discriminate; intros [= <-]; repeat split;
    try congruence; try lia.
Qed.

Lemma broadcast_mismatch {A B C : Type} (f : A -> B -> C)
    (a : list A) (b : list B) :
  length a <> length b -> length a <> 1%nat -> length b <> 1%nat ->
  np.broadcast f a b = inl ValueError.
Proof.
  intros Hne Ha Hb. unfold np.broadcast.
  destruct (Nat.eqb_spec (length a) (length b)) as [| _]; [contradiction |].
  destruct a as [| x [| x' a]]; destruct b as [| y [| y' b]];
    simpl in *; congruence.
Qed.

Lemma confidence_gate_error (x conf : np.array) (threshold : Q)
    (err : PyError) :
  confidence_gate x conf threshold = inl err -> err = ValueError.
Proof.
  unfold confidence_gate, np.mul_mask. intros H.
  now apply broadcast_error in H.
Qed.

Lemma confidence_gate_mismatch (x conf : np.array) (threshold : Q) :
  length x <> length conf -> length x <> 1%nat -> length conf <> 1%nat ->
  confidence_gate x conf threshold = inl ValueError.
Proof.
  intros Hne Hx Hc. unfold confidence_gate, np.mul_mask.
  apply broadcast_mismatch; unfold np.gt; rewrite ?length_map; assumption.
Qed.

(** A raw sequence that cannot be broadcast against the confidence
    sequence (different lengths, neither of length one) makes the cell
    raise [ValueError], for F0 and for loudness alike. *)
Theorem shape_mismatch_raises (p : Params) (e : Env) :
  (length (f0 e) <> length (confidence e) /\
   length (f0 e) <> 1%nat /\ length (confidence e) <> 1%nat) \/
  (length (loudness e) <> length (confidence e) /\
   length (loudness e) <> 1%nat /\ length (confidence e) <> 1%nat) ->
  exec (adjust_control_signals p) e = inl ValueError.
Proof.
  intros H. unfold adjust_control_signals. run_goal.
  destruct (confidence_gate (f0 e) (confidence e) (pitch_conf_filter p))
    as [err | y1] eqn:E1.
  - now rewrite (confidence_gate_error _ _ _ _ E1).
  - destruct H as [(Hne & Hx & Hc) | (Hne & Hx & Hc)].
    + rewrite confidence_gate_mismatch in E1 by assumption. discriminate E1.
    + run_goal. now rewrite confidence_gate_mismatch by assumption.
Qed.

Lemma shape_mismatch_raises_demo :
  exec (adjust_control_signals demo_params)
       (fresh_env [440; 440; 0] [0.9; 0.05] [0.5; 0.01; 0.3]
                  [100; 0.2] [50; 0.1])
  = inl ValueError.
Proof.
  apply (shape_mismatch_raises demo_params
           (fresh_env [440; 440; 0] [0.9; 0.05] [0.5; 0.01; 0.3]
                      [100; 0.2] [50; 0.1])).
  left. simpl. repeat split; lia.
Defined.

Lemma normalize_channel_short (x : list Q) (i : nat) (e : Env) :
  (length (data_mean e) <= i \/ length (data_std e) <= i)%nat ->
  normalize_channel x i e = inl IndexError.
Proof.
  unfold normalize_channel, np.index. intros H.
  destruct (nth_error (data_mean e) i) eqn:Hm; [| reflexivity].
  destruct H as [H | H]; apply nth_error_None in H; [congruence |].
  now rewrite H.
Qed.

Lemma exec_missing_statistics (p : Params) (e : Env) :
  length (confidence e) = length (f0 e) ->
  length (loudness e) = length (f0 e) ->
  (length (data_mean e) < 2 \/ length (data_std e) < 2)%nat ->
  exec (adjust_control_signals p) e = inl IndexError.
Proof.
  intros Hc Hl Hst. unfold adjust_control_signals.
  destruct (confidence_gate_frames (f0 e) (confidence e)
              (pitch_conf_filter p) Hc) as (y1 & E1 & _).
  destruct (confidence_gate_frames (loudness e) (confidence e)
              (loudness_conf_filter p)) as (y2 & E2 & _); [congruence |].
  run_goal. rewrite E1. run_goal. rewrite E2. run_goal. run_goal.
  rewrite floor_loudness_frames. run_goal. run_goal.
  rewrite (normalize_channel_stats _ _ _ e) by reflexivity.
  rewrite normalize_channel_short by lia. reflexivity.
Qed.

(** With one value per frame in every raw sequence, statistics that lack
    an entry for the loudness channel make the cell raise [IndexError]. *)
Theorem missing_statistics_raise (p : Params) (e : Env) :
  length (confidence e) = length (f0 e) ->
  length (loudness e) = length (f0 e) ->
  (length (data_mean e) < 2 \/ length (data_std e) < 2)%nat ->
  exec (adjust_control_signals p) e = inl IndexError.
Proof. apply exec_missing_statistics. Qed.

Lemma missing_statistics_raise_demo :
  exec (adjust_control_signals demo_params)
       (fresh_env [440; 440; 0] [0.9; 0.05; 0.9] [0.5; 0.01; 0.3]
                  [100] [50])
  = inl IndexError.
Proof.
  apply (missing_statistics_raise demo_params
           (fresh_env [440; 440; 0] [0.9; 0.05; 0.9] [0.5; 0.01; 0.3]
                      [100] [50]));
    simpl; try reflexivity.
  left. lia.
Defined.

Lemma exec_empty_clip (p : Params) (e : Env) :
  f0 e = [] -> confidence e = [] -> loudness e = [] ->
  (2 <= length (data_mean e))%nat ->
  (2 <= length (data_std e))%nat ->
  pitch_smoothing p <> 0%nat \/ loudness_smoothing p <> 0%nat ->
  exec (adjust_control_signals p) e = inl RuntimeError.
Proof.
  intros Hf Hc Hl Hm Hs Hr. unfold adjust_control_signals.
  assert (forall t, confidence_gate [] [] t = inr []) as Hnil
    by reflexivity.
  run_goal. rewrite Hf, Hc, Hnil.
  run_goal. rewrite Hl, Hc, Hnil.
  run_goal. run_goal. rewrite floor_loudness_frames. run_goal. run_goal.
  destruct (normalize_channel_total
              (np.mul_scalar (map (fun v : Q =>
                 v * np.of_bool (negb (Qle_bool v (loudness_floor p)))
                 - loudness_floor p) []) (loudness_scale p)) 1 e)
    as (m1 & s1 & _ & _ & E6); [lia | lia |].
  rewrite (normalize_channel_stats _ _ _ e), E6 by reflexivity.
  run_goal. run_goal. run_goal.
  unfold smoothed at 1.
  destruct (Nat.eqb_spec (pitch_smoothing p) 0) as [Hp | Hp].
  - destruct Hr as [Hr | Hr]; [contradiction |].
    destruct (normalize_channel_t_total
                (torch.of_array (shift_octaves [] (octave_shift p))) 0 e)
      as (m0 & s0 & _ & _ & E10); [lia | lia |].
    run_goal. rewrite (normalize_channel_t_stats _ _ _ e), E10 by reflexivity.
    run_goal. unfold smoothed.
    destruct (Nat.eqb_spec (loudness_smoothing p) 0) as [| _];
      [contradiction |].
    cbn [normalize np.div_scalar np.sub_scalar np.mul_scalar map
         torch.of_array].
    now rewrite smooth_empty.
  - cbn [shift_octaves np.mul_scalar map torch.of_array].
    now rewrite smooth_empty.
Qed.

(** A clip without frames passes the gates, the shift, the floor and the
    normalization, but a nonzero smoothing radius then makes [conv1d]
    raise [RuntimeError]: the kernel is longer than the padded input. *)
Theorem empty_clip_smoothing_raises (p : Params) (e : Env) :
  f0 e = [] -> confidence e = [] -> loudness e = [] ->
  (2 <= length (data_mean e))%nat ->
  (2 <= length (data_std e))%nat ->
  pitch_smoothing p <> 0%nat \/ loudness_smoothing p <> 0%nat ->
  exec (adjust_control_signals p) e = inl RuntimeError.
Proof. apply exec_empty_clip. Qed.

Lemma empty_clip_smoothing_raises_demo :
  exec (adjust_control_signals demo_params)
       (fresh_env [] [] [] [100; 0.2] [50; 0.1])
  = inl RuntimeError.
Proof.
  apply (empty_clip_smoothing_raises demo_params
           (fresh_env [] [] [] [100; 0.2] [50; 0.1]));
    simpl; first [reflexivity | lia].
Defined.

(** For equal-length raw sequences the three exceptions above are the only
    ways to fail: the cell completes exactly on well-formed inputs. *)

(** For equal-length raw sequences the exceptions above and the stacking
    of a one-frame clip of which exactly one row is smoothed are the only
    ways to fail: the cell completes exactly on well-formed inputs. *)
Theorem completes_iff_well_formed (p : Params) (e : Env) :
  length (confidence e) = length (f0 e) ->
  length (loudness e) = length (f0 e) ->
  ((exists e', exec (adjust_control_signals p) e = inr e')
   <-> well_formed p e).
Proof.
  intros Hc Hl. split; [| apply exec_total].
  intros (e' & He'). unfold well_formed.
  destruct (le_lt_dec 2 (length (data_mean e))) as [Hm | Hm];
    [| rewrite exec_missing_statistics in He' by (auto; lia);
       discriminate He'].
  destruct (le_lt_dec 2 (length (data_std e))) as [Hs | Hs];
    [| rewrite exec_missing_statistics in He' by (auto; lia);
       discriminate He'].
  repeat (split; [assumption |]).
  split.
  - destruct (f0 e) as [| v x] eqn:Hf; [| left; discriminate].
    right.
    destruct (Nat.eq_dec (pitch_smoothing p) 0) as [Hp | Hp];
      destruct (Nat.eq_dec (loudness_smoothing p) 0) as [Hq | Hq];
      try (split; assumption).
    all: rewrite exec_empty_clip in He';
      [ discriminate He' | assumption
      | now apply length_zero_iff_nil | now apply length_zero_iff_nil
      | assumption | assumption | tauto ].
  - intros H1.
    destruct (Nat.eq_dec (pitch_smoothing p) 0) as [Hp | Hp];
      destruct (Nat.eq_dec (loudness_smoothing p) 0) as [Hq | Hq];
      try tauto.
    all: rewrite exec_one_frame_mixed in He';
      [ discriminate He' | assumption | congruence | congruence
      | assumption | assumption | tauto ].
Qed.

Lemma completes_iff_well_formed_demo :
  (exists e', exec (adjust_control_signals demo_params) demo_env = inr e')
  <-> well_formed demo_params demo_env.
Proof.
  apply (completes_iff_well_formed demo_params demo_env); reflexivity.
Defined.

(** * Further properties of the loudness floor *)



(** For a non-negative floor the floor step is monotone: a sequence that
    is frame by frame at least as loud is floored to one that is frame by
    frame at least as loud. *)
Theorem floor_monotone (f : Q) (x1 x2 : np.array) :
  0 <= f ->
  Forall2 Qle x1 x2 ->
  exists y1 y2,
    floor_loudness x1 f = inr y1 /\
    floor_loudness x2 f = inr y2 /\
    Forall2 Qle y1 y2.
Proof.
  intros Hf Hle. rewrite !floor_loudness_frames.
  eexists; eexists; split; [reflexivity |]; split; [reflexivity |].
  induction Hle as [| a b x1 x2 Hab _ IH]; simpl; constructor; [| exact IH].
  destruct (Qle_bool a f) eqn:Ha; destruct (Qle_bool b f) eqn:Hb; simpl.
  - lra.
  - assert (f < b) as Hlt
      by (apply Qnot_le_lt; intros Hc; apply Qle_bool_iff in Hc; congruence).
    lra.
  - apply Qle_bool_iff in Hb.
    assert (Qle_bool a f = true) as Habs
      by (apply Qle_bool_iff; now apply Qle_trans with b).
    congruence.
  - lra.
Qed.

Lemma floor_monotone_demo :
  exists y1 y2,
    floor_loudness [0.5; 0.01] 0.06 = inr y1 /\
    floor_loudness [0.7; 0.3] 0.06 = inr y2 /\
    Forall2 Qle y1 y2.
Proof.
  apply (floor_monotone 0.06 [0.5; 0.01] [0.7; 0.3]).
  - vm_compute. discriminate.
  - repeat constructor; vm_compute; discriminate.
Defined.

(** * Gated frames further down the chain *)

(** Unless pitch is smoothed, a frame silenced by the pitch gate reaches
    the synthesis call with F0 zero, whatever the octave shift. *)
Theorem gated_pitch_stays_zero (p : Params) (e : Env) :
  well_formed p e ->
  pitch_smoothing p = 0%nat ->
  exists e' f,
    exec (adjust_control_signals p) e = inr e' /\
    f0_t e' = torch.Vector f /\
    forall i c,
      nth_error (confidence e) i = Some c ->
      c <= pitch_conf_filter p ->
      exists v, nth_error f i = Some v /\ v == 0.
Proof.
  intros Hwf Hps. destruct (run_adjusted p e Hwf) as (e' & He' & A).
  exists e', (f0_shifted e'). split; [exact He' |].
  destruct Hwf as (Hc & _).
  pose proof (adj_f0_t _ _ _ A) as F. unfold smoothed in F.
  rewrite Hps in F. simpl in F. injection F as F.
  split; [now symmetry |].
  intros i c Hi Hle.
  destruct (gated_frame_zero _ _ _ _ _ _ Hc (adj_f0_filtered _ _ _ A) Hi Hle)
    as (v & Hv & Hv0).
  rewrite (adj_f0_shifted _ _ _ A).
  unfold shift_octaves, np.mul_scalar. rewrite nth_error_map, Hv. simpl.
  eexists; split; [reflexivity |]. rewrite Hv0. ring.
Qed.

Lemma gated_pitch_stays_zero_demo :
  exists e' f,
    exec (adjust_control_signals (mkParams 1 0.5 0.06 0 0.1 0 2)) demo_env
    = inr e' /\
    f0_t e' = torch.Vector f /\
    forall i c,
      nth_error (confidence demo_env) i = Some c ->
      c <= pitch_conf_filter (mkParams 1 0.5 0.06 0 0.1 0 2) ->
      exists v, nth_error f i = Some v /\ v == 0.
Proof.
  apply (gated_pitch_stays_zero (mkParams 1 0.5 0.06 0 0.1 0 2) demo_env).
  - check_well_formed.
  - reflexivity.
Defined.

(** For a non-negative floor, a frame silenced by the loudness gate leaves
    the floor and scale steps at the negative floor times the scale, not
    at zero. *)
Theorem gated_loudness_is_negative_floor (p : Params) (e : Env) :
  well_formed p e ->
  0 <= loudness_floor p ->
  exists e',
    exec (adjust_control_signals p) e = inr e' /\
    forall i c,
      nth_error (confidence e) i = Some c ->
      c <= loudness_conf_filter p ->
      exists v,
        nth_error (loudness_scaled e') i = Some v /\
        v == (0 - loudness_floor p) * loudness_scale p.
Proof.
  intros Hwf Hfl. destruct (run_adjusted p e Hwf) as (e' & He' & A).
  exists e'. split; [exact He' |].
  destruct Hwf as (Hc & Hl & _).
  intros i c Hi Hle.
  assert (length (confidence e) = length (loudness e)) as Hcl by congruence.
  destruct (gated_frame_zero _ _ _ _ _ _ Hcl
              (adj_loudness_filtered _ _ _ A) Hi Hle) as (v & Hv & Hv0).
  pose proof (adj_loudness_floored _ _ _ A) as F.
  rewrite floor_loudness_frames in F. injection F as F.
  rewrite (adj_loudness_scaled _ _ _ A), <- F.
  unfold np.mul_scalar. rewrite !nth_error_map, Hv. simpl.
  eexists; split; [reflexivity |].
  assert (Qle_bool v (loudness_floor p) = true) as Hb
    by (apply Qle_bool_iff; rewrite Hv0; exact Hfl).
  rewrite Hb. simpl. ring.
Qed.

Lemma gated_loudness_is_negative_floor_demo :
  exists e',
    exec (adjust_control_signals (mkParams 1 0.5 0.06 0.1 0.1 1 2)) demo_env
    = inr e' /\
    forall i c,
      nth_error (confidence demo_env) i = Some c ->
      c <= loudness_conf_filter (mkParams 1 0.5 0.06 0.1 0.1 1 2) ->
      exists v,
        nth_error (loudness_scaled e') i = Some v /\
        v == (0 - loudness_floor (mkParams 1 0.5 0.06 0.1 0.1 1 2))
             * loudness_scale (mkParams 1 0.5 0.06 0.1 0.1 1 2).
Proof.
  apply (gated_loudness_is_negative_floor
           (mkParams 1 0.5 0.06 0.1 0.1 1 2) demo_env).
  - check_well_formed.
  - vm_compute. discriminate.
Defined.

(** * Octave shifts compose *)

(** Shifting by [a] and then by [b] octaves is, value by value, shifting
    by [a + b]; in particular shifting back by [- a] restores the
    sequence. *)
Theorem octave_shifts_add (x : np.array) (a b : Z) :
  Forall2 Qeq (shift_octaves (shift_octaves x a) b) (shift_octaves x (a + b))
  /\ Forall2 Qeq (shift_octaves (shift_octaves x a) (- a)) x.
Proof.
  assert (~ 2 == 0) as H2 by (intros H; vm_compute in H; discriminate H).
  unfold shift_octaves, np.mul_scalar. rewrite !map_map. split.
  - induction x as [| v x IH]; simpl; constructor; [| exact IH].
    rewrite (Qpower_plus 2 a b H2). ring.
  - induction x as [| v x IH]; simpl; constructor; [| exact IH].
    rewrite <- Qmult_assoc, <- (Qpower_plus 2 a (- a) H2), Z.add_opp_diag_r.
    simpl. ring.
Qed.

(** * Further properties of the moving average *)

Lemma window_size_pos (r : nat) : 0 < inject_Z (Z.of_nat (r * 2 + 1)).
Proof.
  unfold Qlt, inject_Z; simpl. lia.
Qed.

Lemma Forall2_map_same {A B : Type} (R : B -> B -> Prop) (f g : A -> B)
    (l : list A) :
  (forall a, R (f a) (g a)) -> Forall2 R (map f l) (map g l).
Proof. intros H. induction l; simpl; constructor; auto. Qed.

Lemma Qsum_scaled (c : Q) (l : list Q) :
  Qsum (map (fun v => v * c) l) == Qsum l * c.
Proof.
  induction l as [| v l IH]; simpl; [ring |].
  rewrite IH. ring.
Qed.

Lemma window_map (f : Q -> Q) (x : list Q) (i r : nat) :
  window (map f x) i r = map f (window x i r).
Proof. unfold window. now rewrite skipn_map, firstn_map. Qed.

(** Smoothing commutes with the octave shift: the moving average of the
    shifted F0 is, value by value, the shifted moving average. *)
Theorem smoothing_commutes_with_shift (x : np.array) (k : Z) (r : nat) :
  x <> [] ->
  exists y y',
    moving_average x r = inr y /\
    moving_average (shift_octaves x k) r = inr y' /\
    Forall2 Qeq y' (shift_octaves y k).
Proof.
  intros Hx.
  assert (shift_octaves x k <> []) as Hx'
    by (apply (nonempty_length x);
        [apply length_shift_octaves | exact Hx]).
  rewrite !moving_average_nonempty by assumption.
  eexists; eexists; split; [reflexivity |]; split; [reflexivity |].
  rewrite length_shift_octaves.
  unfold shift_octaves, np.mul_scalar. rewrite map_map.
  apply Forall2_map_same. intros i.
  rewrite !frame_value, window_map, Qsum_scaled.
  unfold Qdiv. ring.
Qed.

Lemma smoothing_commutes_with_shift_demo :
  exists y y',
    moving_average demo_clip 1 = inr y /\
    moving_average (shift_octaves demo_clip 1) 1 = inr y' /\
    Forall2 Qeq y' (shift_octaves y 1).
Proof.
  apply (smoothing_commutes_with_shift demo_clip 1 1). discriminate.
Defined.

Lemma Qsum_bounds (lo hi : Q) (l : list Q) (n : nat) :
  lo <= 0 -> 0 <= hi ->
  Forall (fun v => lo <= v /\ v <= hi) l ->
  (length l <= n)%nat ->
  lo * inject_Z (Z.of_nat n) <= Qsum l /\
  Qsum l <= hi * inject_Z (Z.of_nat n).
Proof.
  intros Hlo Hhi Hall. revert n.
  induction Hall as [| v l [Hv1 Hv2] _ IH]; intros n Hn; simpl in *.
  - assert (0 <= inject_Z (Z.of_nat n)) as Hpos
      by (unfold Qle, inject_Z; simpl; lia).
    split; nra.
  - destruct n as [| n]; [lia |].
    destruct (IH n ltac:(lia)) as [IH1 IH2].
    rewrite Nat2Z.inj_succ. unfold Z.succ. rewrite inject_Z_plus.
    change (inject_Z 1) with 1.
    split; lra.
Qed.

Lemma Forall_slice {A : Type} (P : A -> Prop) (l : list A) (k i : nat) :
  Forall P l -> Forall P (firstn k (skipn i l)).
Proof.
  intros H.
  assert (Forall P (skipn i l)) as Hs.
  { revert i. induction H as [| a l Ha Hl IH]; intros [| i]; simpl;
      [constructor | constructor | now constructor | apply IH]. }
  clear H. revert k.
  induction Hs as [| a l' Ha _ IH]; intros [| k]; simpl; constructor; auto.
Qed.

(** Smoothing never overshoots: if every sample lies between a bound
    [lo <= 0] and a bound [hi >= 0], so does every smoothed value. *)
Theorem smoothing_stays_within_bounds (x : torch.tensor) (r : nat)
    (lo hi : Q) :
  x <> [] ->
  lo <= 0 -> 0 <= hi ->
  Forall (fun v => lo <= v /\ v <= hi) x ->
  exists y,
    moving_average x r = inr y /\
    Forall (fun v => lo <= v /\ v <= hi) y.
Proof.
  intros Hx Hlo Hhi Hall. rewrite moving_average_nonempty by exact Hx.
  eexists; split; [reflexivity |].
  apply Forall_map, Forall_forall. intros i _.
  rewrite frame_value.
  destruct (Qsum_bounds lo hi (window x i r) (r * 2 + 1) Hlo Hhi) as [B1 B2].
  - unfold window. now apply Forall_slice.
  - unfold window. rewrite length_firstn, length_skipn. lia.
  - pose proof (window_size_pos r) as Hpos. split.
    + apply Qle_shift_div_l; assumption.
    + apply Qle_shift_div_r; assumption.
Qed.

Lemma smoothing_stays_within_bounds_demo :
  exists y,
    moving_average demo_clip 1 = inr y /\
    Forall (fun v => 0 <= v /\ v <= 3) y.
Proof.
  apply (smoothing_stays_within_bounds demo_clip 1 0 3).
  - discriminate.
  - vm_compute. discriminate.
  - vm_compute. discriminate.
  - repeat constructor; vm_compute; discriminate.
Defined.

(** A radius that reaches from every frame to both ends of the clip
    flattens it: every element of the smoothed tensor is the sum of all
    samples divided by the window size. *)
Theorem wide_radius_flattens (x : np.array) (r : nat) :
  x <> [] ->
  (length x <= r + 1)%nat ->
  exists y,
    smooth (torch.of_array x) r = inr y /\
    Forall (fun v => v == Qsum x / inject_Z (Z.of_nat (2 * r + 1)))
           (torch.elements y).
Proof.
  intros Hx Hr. unfold torch.of_array.
  rewrite smooth_vector, moving_average_nonempty by exact Hx.
  eexists; split; [reflexivity |].
  rewrite elements_squeeze.
  apply Forall_map, Forall_forall. intros i Hi.
  apply in_seq in Hi. rewrite frame_value.
  replace (2 * r + 1)%nat with (r * 2 + 1)%nat by lia.
  unfold window.
  replace (i - r)%nat with 0%nat by lia.
  rewrite skipn_O, firstn_all2 by lia. reflexivity.
Qed.

Lemma wide_radius_flattens_demo :
  exists y,
    smooth (torch.of_array demo_clip) 100 = inr y /\
    Forall (fun v => v == Qsum demo_clip / inject_Z (Z.of_nat (2 * 100 + 1)))
           (torch.elements y).
Proof.
  apply (wide_radius_flattens demo_clip 100).
  - discriminate.
  - simpl. lia.
Defined.

(** * The two control channels do not mix *)

(** The loudness row depends on the confidence and loudness sequences,
    the statistics and the loudness sliders only: changing the F0
    sequence, the octave shift, the pitch threshold or the pitch smoothing
    leaves it as it was. *)
Theorem loudness_row_ignores_pitch (p1 p2 : Params) (e1 e2 e1' e2' : Env) :
  confidence e1 = confidence e2 ->
  loudness e1 = loudness e2 ->
  data_mean e1 = data_mean e2 ->
  data_std e1 = data_std e2 ->
  loudness_conf_filter p1 = loudness_conf_filter p2 ->
  loudness_floor p1 = loudness_floor p2 ->
  loudness_scale p1 = loudness_scale p2 ->
  loudness_smoothing p1 = loudness_smoothing p2 ->
  exec (adjust_control_signals p1) e1 = inr e1' ->
  exec (adjust_control_signals p2) e2 = inr e2' ->
  loud_norm_t e1' = loud_norm_t e2'.
Proof.
  intros Hc Hl Hm Hs Hcf Hfl Hsc Hsm H1 H2.
  apply exec_adjusted in H1, H2.
  destruct H1 as [_ _ A2 _ A4 A5 A6 _ A8 _ _].
  destruct H2 as [_ _ B2 _ B4 B5 B6 _ B8 _ _].
  rewrite Hc, Hl, Hcf, B2 in A2. injection A2 as A2.
  rewrite <- A2, Hfl, B4 in A4. injection A4 as A4.
  rewrite <- A4, Hsc, <- B5 in A5.
  rewrite (normalize_channel_stats _ _ e1 e2 Hm Hs), A5, B6 in A6.
  injection A6 as A6.
  rewrite <- A6, Hsm, B8 in A8. now injection A8.
Qed.

Lemma loudness_row_ignores_pitch_demo :
  exists e1' e2',
    exec (adjust_control_signals demo_params) demo_env = inr e1' /\
    exec (adjust_control_signals (mkParams (-2) 0.5 0.06 0 0.3 0 2))
         (fresh_env [220; 110; 55] [0.9; 0.05; 0.9] [0.5; 0.01; 0.3]
                    [100; 0.2] [50; 0.1])
    = inr e2' /\
    loud_norm_t e1' = loud_norm_t e2'.
Proof.
  eexists; eexists.
  split; [vm_compute; reflexivity |]. split; [vm_compute; reflexivity |].
  apply (loudness_row_ignores_pitch demo_params
           (mkParams (-2) 0.5 0.06 0 0.3 0 2) demo_env
           (fresh_env [220; 110; 55] [0.9; 0.05; 0.9] [0.5; 0.01; 0.3]
                      [100; 0.2] [50; 0.1]));
    try reflexivity; vm_compute; reflexivity.
Defined.

(** The pitch row and the F0 handed to the synthesis call depend on the
    F0 and confidence sequences, the statistics and the pitch sliders
    only: changing the loudness sequence or any loudness slider leaves
    them as they were. *)
Theorem pitch_row_ignores_loudness (p1 p2 : Params) (e1 e2 e1' e2' : Env) :
  f0 e1 = f0 e2 ->
  confidence e1 = confidence e2 ->
  data_mean e1 = data_mean e2 ->
  data_std e1 = data_std e2 ->
  pitch_conf_filter p1 = pitch_conf_filter p2 ->
  octave_shift p1 = octave_shift p2 ->
  pitch_smoothing p1 = pitch_smoothing p2 ->
  exec (adjust_control_signals p1) e1 = inr e1' ->
  exec (adjust_control_signals p2) e2 = inr e2' ->
  f0_t e1' = f0_t e2' /\ f0_norm_t e1' = f0_norm_t e2'.
Proof.
  intros Hf Hc Hm Hs Hcf Hsh Hsm H1 H2.
  apply exec_adjusted in H1, H2.
  destruct H1 as [_ A1 _ A3 _ _ _ A7 _ A9 _].
  destruct H2 as [_ B1 _ B3 _ _ _ B7 _ B9 _].
  rewrite Hf, Hc, Hcf, B1 in A1. injection A1 as A1.
  rewrite <- A1, Hsh, <- B3 in A3.
  rewrite A3, Hsm, B7 in A7. injection A7 as A7.
  split; [now symmetry |].
  rewrite (normalize_channel_t_stats _ _ e1 e2 Hm Hs), <- A7, B9 in A9.
  now injection A9.
Qed.

Lemma pitch_row_ignores_loudness_demo :
  exists e1' e2',
    exec (adjust_control_signals demo_params) demo_env = inr e1' /\
    exec (adjust_control_signals (mkParams 1 2 0 0.5 0.1 1 0))
         (fresh_env [440; 440; 0] [0.9; 0.05; 0.9] [0.1; 0.2; 0.9]
                    [100; 0.2] [50; 0.1])
    = inr e2' /\
    f0_t e1' = f0_t e2' /\ f0_norm_t e1' = f0_norm_t e2'.
Proof.
  eexists; eexists.
  split; [vm_compute; reflexivity |]. split; [vm_compute; reflexivity |].
  apply (pitch_row_ignores_loudness demo_params
           (mkParams 1 2 0 0.5 0.1 1 0) demo_env
           (fresh_env [440; 440; 0] [0.9; 0.05; 0.9] [0.1; 0.2; 0.9]
                      [100; 0.2] [50; 0.1]));
    try reflexivity; vm_compute; reflexivity.
Defined.

(** * Checkpoint files *)

Module colab_facts.

Import String Ascii colab.
#[local] Open Scope string_scope.

Lemma getitem_checkpoints (name : string) :
  getitem checkpoints name
  = if "Violin" =? name then Some "vn"
    else if "Flute" =? name then Some "fl"
    else if "Trumpet" =? name then Some "tpt"
    else None.
Proof. reflexivity. Qed.

Lemma resolves_iff_offered (name : string) :
  In name checkpoint_names
  <-> exists files, checkpoint_files name = Some files.
Proof.
  unfold checkpoint_files, checkpoint_names. split.
  - intros [<- | [<- | [<- | []]]]; eexists; reflexivity.
  - intros (files & H). rewrite getitem_checkpoints in H.
    destruct (String.eqb_spec "Violin" name) as [<- | _]; [now left |].
    destruct (String.eqb_spec "Flute" name) as [<- | _];
      [now right; left |].
    destruct (String.eqb_spec "Trumpet" name) as [<- | _];
      [now right; right; left |].
    discriminate H.
Qed.

(** The names the form offers are exactly the keys of [checkpoints]: each
    offered name resolves to its three files, and any other name makes the
    lookup fail with [KeyError]. *)
Theorem offered_names_resolve (name : string) :
  In name checkpoint_names
  <-> exists files, checkpoint_files name = Some files.
Proof. apply resolves_iff_offered. Qed.

(** The files of a checkpoint lie in the directory [checkpoints/nws/]
    followed by the checkpoint's code, and two names never share a
    directory's files. *)
Theorem checkpoint_files_layout (name : string) (files : CheckpointFiles) :
  checkpoint_files name = Some files ->
  (exists code,
     getitem checkpoints name = Some code /\
     weights_file files = "checkpoints/nws/" ++ code ++ "/last.ckpt" /\
     mean_file files = "checkpoints/nws/" ++ code ++ "/data_mean.npy" /\
     std_file files = "checkpoints/nws/" ++ code ++ "/data_std.npy") /\
  (forall other,
     checkpoint_files other = Some files -> other = name).
Proof.
  intros H.
  assert (In name checkpoint_names) as Hin
    by (apply resolves_iff_offered; now exists files).
  split.
  - destruct Hin as [<- | [<- | [<- | []]]];
      vm_compute in H; injection H as <-; eexists;
      (split; [reflexivity |]); repeat split.
  - intros other Ho.
    assert (In other checkpoint_names) as Hino
      by (apply resolves_iff_offered; now exists files).
    destruct Hin as [<- | [<- | [<- | []]]];
      destruct Hino as [<- | [<- | [<- | []]]];
      try reflexivity; vm_compute in H, Ho; congruence.
Qed.

Lemma checkpoint_files_layout_flute :
  (exists code,
     getitem checkpoints "Flute" = Some code /\
     weights_file
       (mkCheckpointFiles "checkpoints/nws/fl/last.ckpt"
          "checkpoints/nws/fl/data_mean.npy"
          "checkpoints/nws/fl/data_std.npy")
     = "checkpoints/nws/" ++ code ++ "/last.ckpt" /\
     mean_file
       (mkCheckpointFiles "checkpoints/nws/fl/last.ckpt"
          "checkpoints/nws/fl/data_mean.npy"
          "checkpoints/nws/fl/data_std.npy")
     = "checkpoints/nws/" ++ code ++ "/data_mean.npy" /\
     std_file
       (mkCheckpointFiles "checkpoints/nws/fl/last.ckpt"
          "checkpoints/nws/fl/data_mean.npy"
          "checkpoints/nws/fl/data_std.npy")
     = "checkpoints/nws/" ++ code ++ "/data_std.npy") /\
  (forall other,
     checkpoint_files other
     = Some (mkCheckpointFiles "checkpoints/nws/fl/last.ckpt"
               "checkpoints/nws/fl/data_mean.npy"
               "checkpoints/nws/fl/data_std.npy") ->
     other = "Flute").
Proof.
  apply (checkpoint_files_layout "Flute"). vm_compute. reflexivity.
Defined.

End colab_facts.

(** * Selecting the waveshaper *)

Lemma select_newt_keeps_original {Newt : Type} (FastNEWT : Newt -> Newt)
    (toggles : list bool) (s : Synth Newt) :
  original_newt (fold_left (fun s b => select_newt FastNEWT b s) toggles s)
  = original_newt s.
Proof.
  revert s. induction toggles as [| b toggles IH]; intros s; simpl;
    [reflexivity |].
  rewrite IH. now destruct b.
Qed.

(** However often "Select NEWT version" is run after a checkpoint was
    loaded, the model ends with the loaded waveshaper itself when the box
    was last unchecked and with one [FastNEWT] built from the loaded
    waveshaper when it was last checked: wrappers never nest and the
    loaded waveshaper is never lost. *)
Theorem select_newt_last_choice_wins {Newt : Type} (FastNEWT : Newt -> Newt)
    (loaded : Newt) (toggles : list bool) (use_fastnewt : bool) :
  fold_left (fun s b => select_newt FastNEWT b s)
            (toggles ++ [use_fastnewt]) (load_model loaded)
  = mkSynth (if use_fastnewt then FastNEWT loaded else loaded) loaded.
Proof.
  rewrite fold_left_app. cbn [fold_left].
  pose proof (select_newt_keeps_original FastNEWT toggles (load_model loaded))
    as Hkeep.
  change (original_newt (load_model loaded)) with loaded in Hkeep.
  set (s := fold_left _ toggles (load_model loaded)) in *.
  clearbody s. unfold select_newt. rewrite Hkeep.
  now destruct use_fastnewt.
Qed.
